(** * Session management of the CodeChecker server

    A shallow embedding of [libcodechecker/server/session_manager.py]:
    the [_Session] record with its time-to-live, the credential validators
    and their dispatch, and the [SessionManager] operations over the
    in-memory session list and the durable store.

    Python exceptions are results of type [result]; the manager and the
    durable store are threaded explicitly, and a raised exception keeps the
    mutations made before it.  [datetime.now()] is the argument [now] of an
    operation (seconds, as an integer): one reading per call of a public
    operation. *)

From Stdlib Require Import ZArith Lia Ascii String.
From stdpp Require Import base option list strings gmap.

Local Open Scope string_scope.
Local Open Scope Z_scope.

(** ** Python values used by the module *)

(** The exceptions the module can meet.  [StoreError] stands for whatever
    the durable store raises. *)
Inductive exn := TypeError | ValueError | UnboundLocalError | StoreError.

Inductive result (A : Type) :=
| Ret (a : A)
| Raise (e : exn).
Arguments Ret {A} a.
Arguments Raise {A} e.

(** [str.split(sep)] with an explicit separator: every occurrence splits,
    empty pieces are kept, and the result is never empty. *)
Fixpoint split (sep : ascii) (s : string) : list string :=
  match s with
  | EmptyString => [EmptyString]
  | String c rest =>
      if Ascii.eqb c sep then EmptyString :: split sep rest
      else match split sep rest with
           | [] => [String c EmptyString]
           | piece :: pieces => String c piece :: pieces
           end
  end.

(** [s.count(sep)] for a separator of one character. *)
Fixpoint count (sep : ascii) (s : string) : nat :=
  match s with
  | EmptyString => 0%nat
  | String c rest =>
      if Ascii.eqb c sep then S (count sep rest) else count sep rest
  end.

(** [sep.join(l)]. *)
Fixpoint join (sep : string) (l : list string) : string :=
  match l with
  | [] => ""
  | [x] => x
  | x :: rest => x ++ sep ++ join sep rest
  end.

(** [a, b = l]: unpacking into two targets. *)
Definition unpack2 (l : list string) : result (string * string) :=
  match l with
  | [a; b] => Ret (a, b)
  | _ => Raise ValueError
  end.

(** [x in l] for a list of strings. *)
Definition str_in (x : string) (l : list string) : bool :=
  existsb (String.eqb x) l.

(** ** The durable store *)

(** Modelled from the spec: the module [database.config_db_model] and the
    SQLAlchemy session factory are not part of the sources.  Following the
    interface of the durable store adapter, a [SessionRecord] has a token, a
    user name, the groups as one delimited string and the last access; the
    [SystemPermission] table is the list of the user names it holds; a
    transaction is acquired, used, committed and released, and a change is
    durable only once its commit went through.  A record is stamped with
    the time of its construction.  [st_faulty] tells which of these calls
    raise. *)
Inductive StoreOp := OpConnect | OpQuery | OpAdd | OpDelete | OpCommit | OpClose.

Record SessionRecord := mkSessionRecord {
  rec_token : string;
  rec_user_name : string;
  rec_groups : string;
  rec_last_access : Z
}.

Record Store := mkStore {
  st_sessions : list SessionRecord;
  st_permissions : list string;
  st_faulty : StoreOp -> bool
}.

Definition with_sessions (rs : list SessionRecord) (st : Store) : Store :=
  {| st_sessions := rs;
     st_permissions := st_permissions st;
     st_faulty := st_faulty st |}.

(** [query(SessionRecord).filter(token == t).limit(1).one_or_none()] *)
Definition query_by_token (t : string) (st : Store) : option SessionRecord :=
  List.find (fun r => String.eqb (rec_token r) t) (st_sessions st).

(** [query(SessionRecord.token).filter(user_name == u).all()] *)
Definition query_tokens_of (u : string) (st : Store) : list string :=
  List.map rec_token
    (List.filter (fun r => String.eqb (rec_user_name r) u) (st_sessions st)).

(** [query(SystemPermission).filter(name == u).limit(1).one_or_none()] *)
Definition query_permission (u : string) (st : Store) : bool :=
  str_in u (st_permissions st).

(** [record.last_access = la] on the record [query_by_token] returned. *)
Fixpoint touch_record (t : string) (la : Z) (rs : list SessionRecord)
  : list SessionRecord :=
  match rs with
  | [] => []
  | r :: rest =>
      if String.eqb (rec_token r) t
      then {| rec_token := rec_token r; rec_user_name := rec_user_name r;
              rec_groups := rec_groups r; rec_last_access := la |} :: rest
      else r :: touch_record t la rest
  end.

(** [query(SessionRecord).filter(token == t).delete()] *)
Definition delete_by_token (t : string) (rs : list SessionRecord)
  : list SessionRecord :=
  List.filter (fun r => negb (String.eqb (rec_token r) t)) rs.

(** ** [_Session] *)

Record Session := mkSession {
  token : string;
  user : string;
  groups : list string;
  session_lifetime : Z;     (* __session_lifetime *)
  is_root : bool;           (* __root *)
  database : bool;          (* __database: the connection, or None *)
  last_access : Z
}.

(** [_Session.__init__]: [last_access if last_access else datetime.now()]. *)
Definition new_Session (now : Z) (tok usr : string) (grps : list string)
    (lifetime : Z) (root : bool) (db : bool) (la : option Z) : Session :=
  {| token := tok; user := usr; groups := grps;
     session_lifetime := lifetime; is_root := root; database := db;
     last_access := match la with Some t => t | None => now end |}.

Definition is_alive (now : Z) (s : Session) : bool :=
  now - last_access s <=? session_lifetime s.

Definition set_last_access (la : Z) (s : Session) : Session :=
  {| token := token s; user := user s; groups := groups s;
     session_lifetime := session_lifetime s; is_root := is_root s;
     database := database s; last_access := la |}.

(** [_Session.revalidate].  The [finally] clause closes [transaction]
    without a guard: when the connection call itself raised, the name is
    unbound and the clause raises [UnboundLocalError]. *)
Definition revalidate (now : Z) (s : Session) (st : Store)
  : Session * Store * result unit :=
  if negb (is_alive now s) then (s, st, Ret tt)
  else
    let s' := set_last_access now s in
    if database s' then
      if st_faulty st OpConnect then (s', st, Raise UnboundLocalError)
      else
        let st' :=
          if st_faulty st OpQuery then st
          else match query_by_token (token s') st with
               | Some _ =>
                   if st_faulty st OpCommit then st
                   else with_sessions
                          (touch_record (token s') (last_access s')
                             (st_sessions st)) st
               | None => st
               end in
        if st_faulty st OpClose then (s', st', Raise StoreError)
        else (s', st', Ret tt)
    else (s', st, Ret tt).

(** ** Collaborators outside the module

    The hash function and the PAM and LDAP bindings ([cc_pam], [cc_ldap])
    are given from outside, and so is whether each binding can be imported
    on the host. *)
Class Backends := {
  PamConfig : Type;
  LdapAuthority : Type;
  sha256_hexdigest : string -> string;
  cc_pam_auth_user : PamConfig -> string -> string -> bool;
  cc_ldap_auth_user : LdapAuthority -> string -> string -> bool;
  cc_ldap_get_groups : LdapAuthority -> string -> string -> list string;
  cc_ldap_importable : bool;
  cc_pam_importable : bool
}.

Section Manager.
Context `{Backends}.

(** The module-level list, filled by the two guarded imports. *)
Definition UNSUPPORTED_METHODS : list string :=
  (if cc_ldap_importable then [] else ["ldap"]) ++
  (if cc_pam_importable then [] else ["pam"]).

(** ** The authentication configuration ([self.__auth_config]) *)

Record MethodDictionary := mkMethodDictionary {
  dict_enabled : bool;
  dict_auths : option (list string);
  dict_groups : option (gmap string (list string))
}.

Record MethodPam := mkMethodPam {
  pam_enabled : bool;
  pam_settings : PamConfig
}.

Record MethodLdap := mkMethodLdap {
  ldap_enabled : bool;
  ldap_authorities : option (list LdapAuthority)
}.

Record AuthConfig := mkAuthConfig {
  enabled : bool;
  cfg_session_lifetime : Z;
  logins_until_cleanup : Z;
  method_root : option string;
  method_dictionary : option MethodDictionary;
  method_pam : option MethodPam;
  method_ldap : option MethodLdap
}.

(** The validation object: a dict with the key [username] and, depending on
    the validator, the keys [groups] and [root]. *)
Record Validation := mkValidation {
  v_username : string;
  v_groups : option (list string);
  v_root : option bool
}.

(** ** The validators *)

(** [self.__auth_config['method_' + method].get('enabled')], when the key
    is in the configuration. *)
Definition method_flag (cfg : AuthConfig) (method : string) : option bool :=
  if String.eqb method "dictionary" then dict_enabled <$> method_dictionary cfg
  else if String.eqb method "pam" then pam_enabled <$> method_pam cfg
  else if String.eqb method "ldap" then ldap_enabled <$> method_ldap cfg
  else None.

Definition is_method_enabled (cfg : AuthConfig) (method : string) : bool :=
  negb (str_in method UNSUPPORTED_METHODS) &&
  match method_flag cfg method with
  | Some b => b
  | None => false
  end.

Definition get_user_name (auth_string : string) : string :=
  match split ":" auth_string with
  | name :: _ => name
  | [] => ""
  end.

Definition try_auth_root (cfg : AuthConfig) (auth_string : string)
  : option Validation :=
  match method_root cfg with
  | Some root_sha =>
      if String.eqb (sha256_hexdigest auth_string) root_sha
      then Some {| v_username := get_user_name auth_string;
                   v_groups := Some [];
                   v_root := Some true |}
      else None
  | None => None
  end.

(** [auth_string in method_config.get('auths')] is evaluated only when the
    method is enabled; without the key it is [auth_string in None]. *)
Definition try_auth_dictionary (cfg : AuthConfig) (auth_string : string)
  : result (option Validation) :=
  match method_dictionary cfg with
  | None => Ret None
  | Some method_config =>
      if is_method_enabled cfg "dictionary" then
        match dict_auths method_config with
        | None => Raise TypeError
        | Some auths =>
            if str_in auth_string auths then
              let username := get_user_name auth_string in
              let group_list :=
                match dict_groups method_config with
                | Some mapping => default [] (mapping !! username)
                | None => []
                end in
              Ret (Some {| v_username := username;
                           v_groups := Some group_list;
                           v_root := None |})
            else Ret None
        end
      else Ret None
  end.

Definition try_auth_pam (cfg : AuthConfig) (auth_string : string)
  : result (option Validation) :=
  if is_method_enabled cfg "pam" then
    match unpack2 (split ":" auth_string) with
    | Raise e => Raise e
    | Ret (username, password) =>
        match method_pam cfg with
        | Some mp =>
            if cc_pam_auth_user (pam_settings mp) username password
            then Ret (Some {| v_username := username;
                              v_groups := None;
                              v_root := None |})
            else Ret None
        | None => Ret None
        end
    end
  else Ret None.

(** The loop over the authorities of [__try_auth_ldap]. *)
Fixpoint ldap_first (authorities : list LdapAuthority)
    (username password : string) : option Validation :=
  match authorities with
  | [] => None
  | ldap_conf :: rest =>
      if cc_ldap_auth_user ldap_conf username password
      then Some {| v_username := username;
                   v_groups := Some (cc_ldap_get_groups ldap_conf
                                       username password);
                   v_root := None |}
      else ldap_first rest username password
  end.

Definition try_auth_ldap (cfg : AuthConfig) (auth_string : string)
  : result (option Validation) :=
  if is_method_enabled cfg "ldap" then
    match unpack2 (split ":" auth_string) with
    | Raise e => Raise e
    | Ret (username, password) =>
        match method_ldap cfg with
        | Some ml =>
            match ldap_authorities ml with
            | Some authorities =>
                Ret (ldap_first authorities username password)
            | None => Raise TypeError
            end
        | None => Ret None
        end
    end
  else Ret None.

Definition handle_validation (cfg : AuthConfig) (auth_string : string)
  : result (option Validation) :=
  match try_auth_dictionary cfg auth_string with
  | Raise e => Raise e
  | Ret (Some validation) => Ret (Some validation)
  | Ret None =>
      match try_auth_pam cfg auth_string with
      | Raise e => Raise e
      | Ret (Some validation) => Ret (Some validation)
      | Ret None =>
          match try_auth_ldap cfg auth_string with
          | Raise e => Raise e
          | Ret (Some validation) => Ret (Some validation)
          | Ret None => Ret None
          end
      end
  end.

(** The validation step of [create_or_get_session]: the root check, and
    [__handle_validation] only when it fails. *)
Definition validate (cfg : AuthConfig) (auth_string : string)
  : result (option Validation) :=
  match try_auth_root cfg auth_string with
  | Some validation => Ret (Some validation)
  | None => handle_validation cfg auth_string
  end.

(** ** [SessionManager] *)

Record SessionManager := mkSessionManager {
  auth_config : AuthConfig;            (* __auth_config *)
  database_connection : bool;          (* __database_connection, or None *)
  logins_since_prune : Z;              (* __logins_since_prune *)
  sessions : list Session              (* __sessions *)
}.

Definition World : Type := SessionManager * Store.

Definition with_session_list (l : list Session) (m : SessionManager)
  : SessionManager :=
  {| auth_config := auth_config m;
     database_connection := database_connection m;
     logins_since_prune := logins_since_prune m;
     sessions := l |}.

Definition with_logins (n : Z) (m : SessionManager) : SessionManager :=
  {| auth_config := auth_config m;
     database_connection := database_connection m;
     logins_since_prune := n;
     sessions := sessions m |}.

(** [set_database_connection] *)
Definition set_database_connection (connection : bool) (m : SessionManager)
  : SessionManager :=
  {| auth_config := auth_config m;
     database_connection := connection;
     logins_since_prune := logins_since_prune m;
     sessions := sessions m |}.

(** What [create_or_get_session] returns: [None] when authentication is
    off, [False] on a rejected credential, the session otherwise. *)
Inductive LoginResult :=
| NoAuth
| Rejected
| Granted (s : Session).

(** A session object handed out by [get_session]: the object at a position
    of the in-memory list (shown with its fields at that moment), or an
    object that is in no list. *)
Inductive SessionRef :=
| Cached (i : nat) (s : Session)
| Detached (s : Session).

Definition ref_session (r : SessionRef) : Session :=
  match r with
  | Cached _ s => s
  | Detached s => s
  end.

(** [get_db_session_tokens]: [None] without a connection and after a caught
    exception; the [finally] clause reads [transaction], which is unbound
    when the connection call raised. *)
Definition get_db_session_tokens (user_name : string) (w : World)
  : result (option (list string)) :=
  let '(m, st) := w in
  if negb (database_connection m) then Ret None
  else if st_faulty st OpConnect then Raise UnboundLocalError
  else if st_faulty st OpQuery then
    if st_faulty st OpClose then Raise StoreError else Ret None
  else
    if st_faulty st OpClose then Raise StoreError
    else Ret (Some (query_tokens_of user_name st)).

(** The loop of [invalidate] over a copy of the in-memory list: every
    session with the token is removed. *)
Definition remove_local (tok : string) (l : list Session) : list Session :=
  List.filter (fun s => negb (String.eqb (token s) tok)) l.

(** [invalidate]: the local sessions go first, then the stored record. *)
Definition invalidate (tok : string) (w : World) : World * result bool :=
  let '(m, st) := w in
  if database_connection m then
    if st_faulty st OpConnect then (w, Raise UnboundLocalError)
    else
      let m' := with_session_list (remove_local tok (sessions m)) m in
      if st_faulty st OpDelete || st_faulty st OpCommit then
        if st_faulty st OpClose then ((m', st), Raise StoreError)
        else ((m', st), Ret false)
      else
        let st' := with_sessions (delete_by_token tok (st_sessions st)) st in
        if st_faulty st OpClose then ((m', st'), Raise StoreError)
        else ((m', st'), Ret true)
  else
    ((with_session_list (remove_local tok (sessions m)) m, st), Ret true).

(** The loop [for token in tokens: self.invalidate(token)]. *)
Fixpoint invalidate_each (tokens : list string) (w : World)
  : World * result unit :=
  match tokens with
  | [] => (w, Ret tt)
  | tok :: rest =>
      match invalidate tok w with
      | (w', Ret _) => invalidate_each rest w'
      | (w', Raise e) => (w', Raise e)
      end
  end.

(** [__cleanup_sessions] *)
Definition cleanup_sessions (now : Z) (w : World) : World * result unit :=
  let '(m, st) := w in
  let tokens :=
    List.map token
      (List.filter (fun s => negb (is_alive now s)) (sessions m)) in
  invalidate_each tokens (with_logins 0 m, st).

(** [_get_local_session_from_db] *)
Definition get_local_session_from_db (now : Z) (tok : string) (w : World)
  : result (option Session) :=
  let '(m, st) := w in
  if negb (database_connection m) then Ret None
  else if st_faulty st OpConnect then Raise UnboundLocalError
  else if st_faulty st OpQuery then
    if st_faulty st OpClose then Raise StoreError else Ret None
  else
    match query_by_token tok st with
    | Some db_record =>
        let user_name := rec_user_name db_record in
        let local_session :=
          new_Session now tok user_name
            (split ";" (rec_groups db_record))
            (cfg_session_lifetime (auth_config m))
            (query_permission user_name st)
            (database_connection m)
            (Some (rec_last_access db_record)) in
        if st_faulty st OpClose then Raise StoreError
        else Ret (Some local_session)
    | None =>
        if st_faulty st OpClose then Raise StoreError else Ret None
    end.

(** The loop of [get_session] over the in-memory list: the position of the
    first session that is alive and has the token. *)
Fixpoint find_live (now : Z) (tok : string) (l : list Session)
  : option (nat * Session) :=
  match l with
  | [] => None
  | sess :: rest =>
      if is_alive now sess && String.eqb (token sess) tok
      then Some (0%nat, sess)
      else match find_live now tok rest with
           | Some (i, s) => Some (S i, s)
           | None => None
           end
  end.

(** [get_session] *)
Definition get_session (now : Z) (tok : string) (w : World)
  : World * result (option SessionRef) :=
  let '(m, st) := w in
  if negb (enabled (auth_config m)) then (w, Ret None)
  else
    match find_live now tok (sessions m) with
    | Some (i, sess) => (w, Ret (Some (Cached i sess)))
    | None =>
        match get_local_session_from_db now tok w with
        | Raise e => (w, Raise e)
        | Ret (Some local_session) =>
            if is_alive now local_session then
              ((with_session_list (sessions m ++ [local_session]) m, st),
               Ret (Some (Cached (length (sessions m)) local_session)))
            else
              match invalidate tok w with
              | (w', Ret _) => (w', Ret (Some (Detached local_session)))
              | (w', Raise e) => (w', Raise e)
              end
        | Ret None =>
            match invalidate tok w with
            | (w', Ret _) => (w', Ret None)
            | (w', Raise e) => (w', Raise e)
            end
        end
    end.

(** [local_session.revalidate()] on the object [get_session] handed out:
    a cached object is updated where it sits in the list. *)
Definition revalidate_ref (now : Z) (r : SessionRef) (w : World)
  : World * result Session :=
  let '(m, st) := w in
  let '(s', st', res) := revalidate now (ref_session r) st in
  let m' :=
    match r with
    | Cached i _ => with_session_list (<[i := s']> (sessions m)) m
    | Detached _ => m
    end in
  match res with
  | Ret _ => ((m', st'), Ret s')
  | Raise e => ((m', st'), Raise e)
  end.

(** The insertion of the new record at the end of
    [create_or_get_session]. *)
Definition store_login_record (now : Z) (tok user_name : string)
    (grps : list string) (w : World) : World * result unit :=
  let '(m, st) := w in
  if database_connection m then
    if st_faulty st OpConnect then (w, Raise UnboundLocalError)
    else
      let st' :=
        if st_faulty st OpAdd || st_faulty st OpCommit then st
        else with_sessions
               (st_sessions st ++
                  [{| rec_token := tok; rec_user_name := user_name;
                      rec_groups := join ";" grps;
                      rec_last_access := now |}]) st in
      if st_faulty st OpClose then ((m, st'), Raise StoreError)
      else ((m, st'), Ret tt)
  else (w, Ret tt).

(** The first step of [create_or_get_session]: the login is counted and,
    when the count reaches [logins_until_cleanup], the sessions are pruned. *)
Definition count_login (now : Z) (w : World) : World * result unit :=
  let '(m, st) := w in
  let m1 := with_logins (logins_since_prune m + 1) m in
  if logins_until_cleanup (auth_config m1) <=? logins_since_prune m1
  then cleanup_sessions now (m1, st)
  else ((m1, st), Ret tt).

(** The rest of [create_or_get_session]: the credential is validated, a
    token is looked up or made, and the session is found or created.
    [fresh] is what [generate_session_token] returns if it is called. *)
Definition authenticate (now : Z) (fresh : string) (auth_string : string)
    (w : World) : World * result LoginResult :=
  match validate (auth_config (fst w)) auth_string with
  | Raise e => (w, Raise e)
  | Ret None => (w, Ret Rejected)
  | Ret (Some validation) =>
      let user_name := v_username validation in
      match get_db_session_tokens user_name w with
      | Raise e => (w, Raise e)
      | Ret None => (w, Raise TypeError)       (* len(None) *)
      | Ret (Some tokens) =>
          let tok := match tokens with
                     | t :: _ => t
                     | [] => fresh
                     end in
          match get_session now tok w with
          | (w3, Raise e) => (w3, Raise e)
          | (w3, Ret (Some local_session)) =>
              match revalidate_ref now local_session w3 with
              | (w4, Ret s) => (w4, Ret (Granted s))
              | (w4, Raise e) => (w4, Raise e)
              end
          | (w3, Ret None) =>
              let grps := default [] (v_groups validation) in
              let root := default false (v_root validation) in
              let local_session :=
                new_Session now tok user_name grps
                  (cfg_session_lifetime (auth_config (fst w3)))
                  root (database_connection (fst w3)) None in
              let w4 :=
                (with_session_list
                   (sessions (fst w3) ++ [local_session]) (fst w3),
                 snd w3) in
              match store_login_record now tok user_name grps w4 with
              | (w5, Ret _) => (w5, Ret (Granted local_session))
              | (w5, Raise e) => (w5, Raise e)
              end
          end
      end
  end.

(** [create_or_get_session] *)
Definition create_or_get_session (now : Z) (fresh : string)
    (auth_string : string) (w : World) : World * result LoginResult :=
  if negb (enabled (auth_config (fst w))) then (w, Ret NoAuth)
  else
    match count_login now w with
    | (w2, Raise e) => (w2, Raise e)
    | (w2, Ret _) => authenticate now fresh auth_string w2
    end.

(** A manager as [__init__] leaves it, [cfg] being the configuration it
    settled on: no connection, no login counted, no session. *)
Definition new_manager (cfg : AuthConfig) : SessionManager :=
  {| auth_config := cfg;
     database_connection := false;
     logins_since_prune := 0;
     sessions := [] |}.

End Manager.

(** ** Sequences of operations *)

(** The calls a client of the manager can make, [cleanup] standing for the
    pruning pass run on its own. *)
Inductive Call :=
| CallLogin (fresh auth_string : string)
| CallGet (tok : string)
| CallInvalidate (tok : string)
| CallCleanup.

Section Runs.
Context `{Backends}.

(** The world after a call, whether it returned or raised. *)
Definition after (now : Z) (c : Call) (w : World) : World :=
  match c with
  | CallLogin fresh auth_string =>
      fst (create_or_get_session now fresh auth_string w)
  | CallGet tok => fst (get_session now tok w)
  | CallInvalidate tok => fst (invalidate tok w)
  | CallCleanup => fst (cleanup_sessions now w)
  end.

(** The worlds a manager built with [cfg] can be in at time [now]: it
    starts with no session; calls are served at times that never go back;
    in between, the durable store may change in any way (other processes,
    outages) and a connection may be set or unset. *)
Inductive reachable (cfg : AuthConfig) : Z -> World -> Prop :=
| reach_new now st :
    reachable cfg now (new_manager cfg, st)
| reach_call now now' c w :
    reachable cfg now w -> now <= now' ->
    reachable cfg now' (after now' c w)
| reach_wait now now' w :
    reachable cfg now w -> now <= now' ->
    reachable cfg now' w
| reach_store now m st st' :
    reachable cfg now (m, st) ->
    reachable cfg now (m, st')
| reach_connection now connection m st :
    reachable cfg now (m, st) ->
    reachable cfg now (set_database_connection connection m, st).

(** The sessions of a list that are alive and carry a token. *)
Definition live_with (now : Z) (tok : string) (l : list Session)
  : list Session :=
  List.filter (fun s => is_alive now s && String.eqb (token s) tok) l.

(** The configuration, the connection and the login counter are the
    same in both worlds. *)
Definition same_settings (w w' : World) : Prop :=
  auth_config (fst w') = auth_config (fst w) /\
  database_connection (fst w') = database_connection (fst w) /\
  logins_since_prune (fst w') = logins_since_prune (fst w).

(** No token has two live sessions in the list. *)
Definition one_live_per_token (now : Z) (l : list Session) : Prop :=
  forall tok, (length (live_with now tok l) <= 1)%nat.

(** Every session of the list is alive, or was stamped at this very
    moment. *)
Definition live_or_stamped (now : Z) (l : list Session) : Prop :=
  Forall (fun s => is_alive now s = true \/ last_access s = now) l.

(** What the operations do to the in-memory list at time [now]: they
    remove sessions, append a session whose token has no live session in
    the list, and stamp a live session where it sits. *)
Inductive list_step (now : Z) : list Session -> list Session -> Prop :=
| step_none l :
    list_step now l l
| step_remove keep l :
    list_step now l (List.filter keep l)
| step_append l s :
    live_with now (token s) l = [] ->
    is_alive now s = true \/ last_access s = now ->
    list_step now l (l ++ [s])
| step_stamp l i s :
    l !! i = Some s -> is_alive now s = true ->
    list_step now l (<[i := set_last_access now s]> l)
| step_then l1 l2 l3 :
    list_step now l1 l2 -> list_step now l2 l3 -> list_step now l1 l3.

(** The dispatch as the specification words it: the validators are asked
    in the order of the list, and the first one that does not reject
    decides. *)
Fixpoint first_accepting
    (validators : list (AuthConfig -> string -> result (option Validation)))
    (cfg : AuthConfig) (auth_string : string)
  : result (option Validation) :=
  match validators with
  | [] => Ret None
  | v :: rest =>
      match v cfg auth_string with
      | Raise e => Raise e
      | Ret (Some validation) => Ret (Some validation)
      | Ret None => first_accepting rest cfg auth_string
      end
  end.

Definition validators_in_order
  : list (AuthConfig -> string -> result (option Validation)) :=
  [ (fun cfg a => Ret (try_auth_root cfg a));
    try_auth_dictionary; try_auth_pam; try_auth_ldap ].

(** No call on the store needed to open or to release a transaction
    raises, when the manager has a connection. *)
Definition transactions_open (w : World) : Prop :=
  database_connection (fst w) = true ->
  st_faulty (snd w) OpConnect = false /\ st_faulty (snd w) OpClose = false.

(** The deletion of [invalidate] fails: the manager has a connection and
    the delete or its commit raises. *)
Definition deletion_fails (w : World) : bool :=
  database_connection (fst w) &&
  (st_faulty (snd w) OpDelete || st_faulty (snd w) OpCommit).

(** The store [invalidate] leaves behind when its transaction opens and
    closes: the records of the token are gone if there is a connection and
    the deletion went through, and nothing changed otherwise. *)
Definition store_after_invalidate (tok : string) (w : World) : Store :=
  if database_connection (fst w) && negb (deletion_fails w)
  then with_sessions (delete_by_token tok (st_sessions (snd w))) (snd w)
  else snd w.

(** The token is in neither tier. *)
Definition absent (tok : string) (w : World) : Prop :=
  List.filter (fun s => String.eqb (token s) tok) (sessions (fst w)) = [] /\
  List.filter (fun r => String.eqb (rec_token r) tok) (st_sessions (snd w)) = [].

(** [w'] is [w] with some sessions and some stored records taken away,
    and nothing else changed but the login counter. *)
Definition pruned_from (w w' : World) : Prop :=
  auth_config (fst w') = auth_config (fst w) /\
  database_connection (fst w') = database_connection (fst w) /\
  st_faulty (snd w') = st_faulty (snd w) /\
  st_permissions (snd w') = st_permissions (snd w) /\
  (exists keep, sessions (fst w') = List.filter keep (sessions (fst w))) /\
  (exists keep,
      st_sessions (snd w') = List.filter keep (st_sessions (snd w))).

End Runs.

(** ** A concrete installation *)

Module Scenario.

(** Bindings that accept every user, and a stand-in for the hash. *)
Definition backends : Backends :=
  {| PamConfig := unit;
     LdapAuthority := unit;
     sha256_hexdigest := fun s => "sha256(" ++ s ++ ")";
     cc_pam_auth_user := fun _ _ _ => true;
     cc_ldap_auth_user := fun _ _ _ => true;
     cc_ldap_get_groups := fun _ _ _ => ["staff"];
     cc_ldap_importable := true;
     cc_pam_importable := true |}.

#[local] Existing Instance backends.

Definition root_sha : string := "sha256(root:adminpw)".

(** The dictionary backend with the entry [alice:secret], a second user
    without groups, and a lifetime of a minute. *)
Definition dictionary_cfg : AuthConfig :=
  {| enabled := true;
     cfg_session_lifetime := 60;
     logins_until_cleanup := 3;
     method_root := Some root_sha;
     method_dictionary :=
       Some {| dict_enabled := true;
               dict_auths := Some ["alice:secret"; "carol:pw"];
               dict_groups := Some {[ "alice" := ["dev"] ]} |};
     method_pam := None;
     method_ldap := None |}.

(** PAM and LDAP enabled, the dictionary off. *)
Definition pam_ldap_cfg : AuthConfig :=
  {| enabled := true;
     cfg_session_lifetime := 60;
     logins_until_cleanup := 3;
     method_root := Some root_sha;
     method_dictionary := None;
     method_pam := Some {| pam_enabled := true; pam_settings := tt |};
     method_ldap := Some {| ldap_enabled := true;
                            ldap_authorities := Some [tt] |} |}.

Definition ldap_only_cfg : AuthConfig :=
  {| enabled := true;
     cfg_session_lifetime := 60;
     logins_until_cleanup := 3;
     method_root := Some root_sha;
     method_dictionary := None;
     method_pam := None;
     method_ldap := Some {| ldap_enabled := true;
                            ldap_authorities := Some [tt] |} |}.

Definition empty_store : Store :=
  {| st_sessions := []; st_permissions := []; st_faulty := fun _ => false |}.

(** A store on which every call raises. *)
Definition broken_store : Store :=
  {| st_sessions := []; st_permissions := []; st_faulty := fun _ => true |}.

(** A store whose transactions open and close, and whose queries,
    insertions, deletions and commits raise. *)
Definition failing_store : Store :=
  {| st_sessions := []; st_permissions := [];
     st_faulty := fun op => match op with
                            | OpConnect | OpClose => false
                            | _ => true
                            end |}.

(** A store that holds one record, last used at time 0. *)
Definition stale_store : Store :=
  {| st_sessions := [ {| rec_token := "A"; rec_user_name := "alice";
                         rec_groups := "dev"; rec_last_access := 0 |} ];
     st_permissions := [];
     st_faulty := fun _ => false |}.

Definition connected (cfg : AuthConfig) : SessionManager :=
  set_database_connection true (new_manager cfg).

(** Alice logged in at time 0 and was given the token [A]. *)
Definition alice_at_0 : World :=
  fst (create_or_get_session 0 "A" "alice:secret"
         (connected dictionary_cfg, empty_store)).

Definition alice_session (la : Z) : Session :=
  {| token := "A"; user := "alice"; groups := ["dev"];
     session_lifetime := 60; is_root := false; database := true;
     last_access := la |}.

(** Two logins were counted since the last pruning, and Alice's session of
    time 0 is still in memory and in the store. *)
Definition two_logins_counted : World :=
  ({| auth_config := dictionary_cfg;
      database_connection := true;
      logins_since_prune := 2;
      sessions := [alice_session 0] |},
   stale_store).

Definition carol_session (la : Z) : Session :=
  {| token := "B"; user := "carol"; groups := [];
     session_lifetime := 60; is_root := false; database := true;
     last_access := la |}.

End Scenario.

(** ** The construction of the manager *)

Section Initialisation.
Context `{Backends}.

(** The dict [load_json_or_empty] hands to [__init__]: the keys
    [max_run_count] and [authentication] when the file has them, and the
    names of the keys the manager does not read. *)
Record ServerConfig := mkServerConfig {
  scfg_max_run_count : option Z;
  scfg_authentication : option AuthConfig;
  scfg_other_keys : list string
}.

(** [scfg_dict != {}] *)
Definition scfg_nonempty (scfg : ServerConfig) : bool :=
  match scfg_max_run_count scfg, scfg_authentication scfg,
        scfg_other_keys scfg with
  | None, None, [] => false
  | _, _, _ => true
  end.

Definition set_enabled (b : bool) (cfg : AuthConfig) : AuthConfig :=
  {| enabled := b;
     cfg_session_lifetime := cfg_session_lifetime cfg;
     logins_until_cleanup := logins_until_cleanup cfg;
     method_root := method_root cfg;
     method_dictionary := method_dictionary cfg;
     method_pam := method_pam cfg;
     method_ldap := method_ldap cfg |}.

Definition set_method_root (root_sha : string) (cfg : AuthConfig)
  : AuthConfig :=
  {| enabled := enabled cfg;
     cfg_session_lifetime := cfg_session_lifetime cfg;
     logins_until_cleanup := logins_until_cleanup cfg;
     method_root := Some root_sha;
     method_dictionary := method_dictionary cfg;
     method_pam := method_pam cfg;
     method_ldap := method_ldap cfg |}.

(** [self.__auth_config['method_ldap']['enabled'] = False] *)
Definition disable_ldap (cfg : AuthConfig) : AuthConfig :=
  {| enabled := enabled cfg;
     cfg_session_lifetime := cfg_session_lifetime cfg;
     logins_until_cleanup := logins_until_cleanup cfg;
     method_root := method_root cfg;
     method_dictionary := method_dictionary cfg;
     method_pam := method_pam cfg;
     method_ldap :=
       match method_ldap cfg with
       | Some ml => Some {| ldap_enabled := false;
                            ldap_authorities := ldap_authorities ml |}
       | None => None
       end |}.

(** [self.__auth_config['method_pam']['enabled'] = False] *)
Definition disable_pam (cfg : AuthConfig) : AuthConfig :=
  {| enabled := enabled cfg;
     cfg_session_lifetime := cfg_session_lifetime cfg;
     logins_until_cleanup := logins_until_cleanup cfg;
     method_root := method_root cfg;
     method_dictionary := method_dictionary cfg;
     method_pam :=
       match method_pam cfg with
       | Some mp => Some {| pam_enabled := false;
                            pam_settings := pam_settings mp |}
       | None => None
       end;
     method_ldap := method_ldap cfg |}.

(** ['method_x' in cfg and cfg['method_x'].get('enabled')] *)
Definition key_enabled {A : Type} (flag : A -> bool) (entry : option A)
  : bool :=
  match entry with
  | Some method_config => flag method_config
  | None => false
  end.

(** What [__init__] makes of the [authentication] block of the file:
    authentication is forced on if asked, the root hash is put in, and,
    when authentication is on, the methods whose prerequisites are missing
    are switched off and authentication itself is switched off if no
    method is left and it was not forced.  The constructor reads the key
    [enabled] with [.get], so that a block without the key is read as one
    that has it off; [create_or_get_session] reads it with an index and
    would raise [KeyError] on such a block.  A block whose [enabled] is on
    has the key, and keeps it through the constructor. *)
Definition settle_auth_config (force_auth : bool) (root_sha : string)
    (file_cfg : AuthConfig) : AuthConfig :=
  let cfg0 := if force_auth then set_enabled true file_cfg else file_cfg in
  let cfg1 := set_method_root root_sha cfg0 in
  if enabled cfg1 then
    let found0 := key_enabled dict_enabled (method_dictionary cfg1) in
    let '(found1, cfg2) :=
      if key_enabled ldap_enabled (method_ldap cfg1) then
        if negb (str_in "ldap" UNSUPPORTED_METHODS) then (true, cfg1)
        else (found0, disable_ldap cfg1)
      else (found0, cfg1) in
    let '(found2, cfg3) :=
      if key_enabled pam_enabled (method_pam cfg2) then
        if negb (str_in "pam" UNSUPPORTED_METHODS) then (true, cfg2)
        else (found1, disable_pam cfg2)
      else (found1, cfg2) in
    if negb found2 then
      if force_auth then cfg3 else set_enabled false cfg3
    else cfg3
  else cfg1.

(** What the constructor ends with: the manager and its
    [__max_run_count], or the exception it raises ([ValueError] on an
    empty dict, [KeyError] on a dict without the key [authentication]).
    The salt is hashed and stored, and never read again; it is left out. *)
Inductive Constructed :=
| Initialised (m : SessionManager) (max_run_count : option Z)
| InitValueError
| InitKeyError.

(** [SessionManager.__init__].  [check_file_owner_rw] looks at the
    permissions of the file and logs a warning; it changes nothing the
    manager keeps. *)
Definition init (scfg : ServerConfig) (root_sha : string)
    (force_auth : bool) : Constructed :=
  if scfg_nonempty scfg then
    match scfg_authentication scfg with
    | Some file_cfg =>
        Initialised
          (new_manager (settle_auth_config force_auth root_sha file_cfg))
          (scfg_max_run_count scfg)
    | None => InitKeyError
    end
  else InitValueError.

(** [is_enabled] *)
Definition is_enabled (m : SessionManager) : bool :=
  enabled (auth_config m).

(** The names [__is_method_enabled] is asked about. *)
Definition method_names : list string := ["dictionary"; "pam"; "ldap"].

(** The tokens the pruning pass collects. *)
Definition dead_tokens (now : Z) (l : list Session) : list string :=
  List.map token (List.filter (fun s => negb (is_alive now s)) l).

(** What a stored list of groups reads back as: [''.split(';')] is
    [['']]. *)
Definition groups_read_back (grps : list string) : list string :=
  match grps with
  | [] => [""]
  | _ => grps
  end.

(** The fields of a stored record, apart from its last access. *)
Definition rec_identity (r : SessionRecord) : string * string * string :=
  (rec_token r, rec_user_name r, rec_groups r).

End Initialisation.

(** ** Configuration files and a host without bindings *)

Module Files.
Import Scenario.
#[local] Existing Instance backends.

(** The [authentication] block of a file that enables the dictionary. *)
Definition dictionary_block : AuthConfig :=
  {| enabled := true;
     cfg_session_lifetime := 60;
     logins_until_cleanup := 3;
     method_root := None;
     method_dictionary :=
       Some {| dict_enabled := true;
               dict_auths := Some ["alice:secret"; "carol:pw"];
               dict_groups := Some {[ "alice" := ["dev"] ]} |};
     method_pam := None;
     method_ldap := None |}.

Definition dictionary_file : ServerConfig :=
  {| scfg_max_run_count := Some 50;
     scfg_authentication := Some dictionary_block;
     scfg_other_keys := [] |}.

(** A block that asks for authentication and configures no method. *)
Definition no_method_block : AuthConfig :=
  {| enabled := true;
     cfg_session_lifetime := 60;
     logins_until_cleanup := 3;
     method_root := None;
     method_dictionary := None;
     method_pam := None;
     method_ldap := None |}.

Definition no_method_file : ServerConfig :=
  {| scfg_max_run_count := None;
     scfg_authentication := Some no_method_block;
     scfg_other_keys := [] |}.

(** What the constructor settles on for that block, forced and not. *)
Definition root_only_cfg : AuthConfig :=
  {| enabled := true;
     cfg_session_lifetime := 60;
     logins_until_cleanup := 3;
     method_root := Some root_sha;
     method_dictionary := None;
     method_pam := None;
     method_ldap := None |}.

Definition switched_off_cfg : AuthConfig :=
  {| enabled := false;
     cfg_session_lifetime := 60;
     logins_until_cleanup := 3;
     method_root := Some root_sha;
     method_dictionary := None;
     method_pam := None;
     method_ldap := None |}.

(** A host on which neither binding can be imported. *)
Definition bare_backends : Backends :=
  {| PamConfig := unit;
     LdapAuthority := unit;
     sha256_hexdigest := fun s => "sha256(" ++ s ++ ")";
     cc_pam_auth_user := fun _ _ _ => true;
     cc_ldap_auth_user := fun _ _ _ => true;
     cc_ldap_get_groups := fun _ _ _ => ["staff"];
     cc_ldap_importable := false;
     cc_pam_importable := false |}.

(** A configuration for that host that enables PAM and LDAP all the
    same. *)
Definition bare_host_cfg : @AuthConfig bare_backends :=
  @mkAuthConfig bare_backends true 60 3 (Some root_sha) None
    (Some (@mkMethodPam bare_backends true tt))
    (Some (@mkMethodLdap bare_backends true (Some [tt]))).

(** A store on which only the release of a transaction raises. *)
Definition closing_fails_store : Store :=
  {| st_sessions := []; st_permissions := [];
     st_faulty := fun op => match op with
                            | OpClose => true
                            | _ => false
                            end |}.

(** Alice's validation. *)
Definition alice_validation : Validation :=
  {| v_username := "alice"; v_groups := Some ["dev"]; v_root := None |}.

End Files.

(** * Properties *)

(** ** Strings *)

Lemma split_length (sep : ascii) (s : string) :
  length (split sep s) = S (count sep s).
Proof.
  induction s as [|c rest IH]; simpl; [reflexivity|].
  destruct (Ascii.eqb c sep); simpl; [now rewrite IH|].
  destruct (split sep rest) as [|piece pieces]; simpl in *; [discriminate|].
  exact IH.
Qed.

Lemma count_app (sep : ascii) (s1 s2 : string) :
  count sep (s1 ++ s2) = (count sep s1 + count sep s2)%nat.
Proof.
  induction s1 as [|c rest IH]; simpl; [reflexivity|].
  destruct (Ascii.eqb c sep); simpl; rewrite IH; reflexivity.
Qed.

Lemma unpack2_length (l : list string) :
  length l <> 2%nat -> unpack2 l = Raise ValueError.
Proof.
  destruct l as [|a [|b [|c rest]]]; simpl; intros Hlen;
    try reflexivity; congruence.
Qed.

(** A credential with two colons or more cannot be unpacked into a user
    name and a password. *)
Lemma unpack2_two_colons (auth_string : string) :
  (2 <= count ":" auth_string)%nat ->
  unpack2 (split ":" auth_string) = Raise ValueError.
Proof.
  intros Hcount. apply unpack2_length. rewrite split_length. lia.
Qed.

(** ** The session record *)

Lemma is_alive_spec (now : Z) (s : Session) :
  is_alive now s = true <-> now - last_access s <= session_lifetime s.
Proof. unfold is_alive. apply Z.leb_le. Qed.

(** Time only takes life away. *)
Lemma is_alive_earlier (now later : Z) (s : Session) :
  now <= later -> is_alive later s = true -> is_alive now s = true.
Proof. rewrite !is_alive_spec. lia. Qed.

Lemma is_dead_later (now later : Z) (s : Session) :
  now <= later -> is_alive now s = false -> is_alive later s = false.
Proof.
  intros Hle Hdead. destruct (is_alive later s) eqn:Hlater; [|reflexivity].
  apply (is_alive_earlier now) in Hlater; [congruence | exact Hle].
Qed.

(** C7: revalidating a dead session changes nothing: the record keeps every
    field, its [last_access] among them, the durable store is not touched,
    no exception is raised, and the record is dead at that time and at
    every later one. *)
Theorem revalidate_dead_is_noop (now : Z) (s : Session) (st : Store) :
  is_alive now s = false ->
  revalidate now s st = (s, st, Ret tt) /\
  (forall later, now <= later ->
     is_alive later (fst (fst (revalidate now s st))) = false).
Proof.
  intros Hdead.
  assert (Hnoop : revalidate now s st = (s, st, Ret tt)).
  { unfold revalidate. rewrite Hdead. reflexivity. }
  split; [exact Hnoop|].
  intros later Hle. rewrite Hnoop. simpl.
  now apply (is_dead_later now).
Qed.

(** ** The validators *)

Section ValidatorProperties.
Context `{Backends}.



(** The PAM and the LDAP validator raise on a credential with more than
    one colon, whatever the bindings would answer. *)
Lemma try_auth_pam_two_colons (cfg : AuthConfig) (auth_string : string) :
  is_method_enabled cfg "pam" = true ->
  (2 <= count ":" auth_string)%nat ->
  try_auth_pam cfg auth_string = Raise ValueError.
Proof.
  intros Hon Hcount. unfold try_auth_pam.
  rewrite Hon, unpack2_two_colons by exact Hcount. reflexivity.
Qed.

Lemma try_auth_ldap_two_colons (cfg : AuthConfig) (auth_string : string) :
  is_method_enabled cfg "ldap" = true ->
  (2 <= count ":" auth_string)%nat ->
  try_auth_ldap cfg auth_string = Raise ValueError.
Proof.
  intros Hon Hcount. unfold try_auth_ldap.
  rewrite Hon, unpack2_two_colons by exact Hcount. reflexivity.
Qed.

Lemma secret_with_colon_count (username secret : string) :
  (1 <= count ":" secret)%nat ->
  (2 <= count ":" (username ++ ":" ++ secret))%nat.
Proof.
  intros Hsecret. rewrite !count_app. simpl. lia.
Qed.

(** The validation step is the ordered dispatch. *)
Lemma validate_in_order (cfg : AuthConfig) (auth_string : string) :
  validate cfg auth_string =
  first_accepting validators_in_order cfg auth_string.
Proof.
  unfold validate, validators_in_order, handle_validation. simpl.
  destruct (try_auth_root cfg auth_string) as [v|]; reflexivity.
Qed.

(** The root check looks at nothing but the hash. *)
Lemma validate_root (cfg : AuthConfig) (auth_string : string) :
  method_root cfg = Some (sha256_hexdigest auth_string) ->
  validate cfg auth_string =
    Ret (Some {| v_username := get_user_name auth_string;
                 v_groups := Some [];
                 v_root := Some true |}).
Proof.
  intros Hroot. unfold validate, try_auth_root.
  rewrite Hroot, String.eqb_refl. reflexivity.
Qed.

End ValidatorProperties.

(** ** Lists and their filters *)

Lemma str_in_In (x : string) (l : list string) :
  str_in x l = true <-> In x l.
Proof.
  unfold str_in. rewrite existsb_exists. split.
  - intros [y [Hin Heq]]. apply String.eqb_eq in Heq. now subst.
  - intros Hin. exists x. split; [exact Hin | apply String.eqb_refl].
Qed.

Lemma filter_all {A : Type} (keep : A -> bool) (l : list A) :
  (forall x, In x l -> keep x = true) -> List.filter keep l = l.
Proof.
  induction l as [|x l IH]; simpl; intros Hall; [reflexivity|].
  rewrite (Hall x) by now left.
  f_equal. apply IH. intros y Hy. apply Hall. now right.
Qed.

Lemma filter_twice {A : Type} (p q : A -> bool) (l : list A) :
  List.filter p (List.filter q l) = List.filter (fun x => q x && p x) l.
Proof.
  induction l as [|x l IH]; simpl; [reflexivity|].
  destruct (q x); simpl; [destruct (p x)|]; now rewrite IH.
Qed.

Lemma filter_length_le {A : Type} (p : A -> bool) (l : list A) :
  (length (List.filter p l) <= length l)%nat.
Proof.
  induction l as [|x l IH]; simpl; [lia|]. destruct (p x); simpl; lia.
Qed.

Lemma filter_length_mono {A : Type} (p q : A -> bool) (l : list A) :
  (forall x, p x = true -> q x = true) ->
  (length (List.filter p l) <= length (List.filter q l))%nat.
Proof.
  intros Himp. induction l as [|x l IH]; simpl; [lia|].
  destruct (p x) eqn:Hp.
  - rewrite (Himp x Hp). simpl. lia.
  - destruct (q x); simpl; lia.
Qed.

Lemma filter_none {A : Type} (p : A -> bool) (l : list A) :
  List.filter p l = [] <-> (forall x, In x l -> p x = false).
Proof.
  induction l as [|x l IH]; simpl.
  - split; [intros _ y [] | reflexivity].
  - destruct (p x) eqn:Hp; split.
    + discriminate.
    + intros Hall. specialize (Hall x (or_introl eq_refl)). congruence.
    + intros Hnil y [<-|Hy]; [exact Hp | now apply IH].
    + intros Hall. apply IH. intros y Hy. apply Hall. now right.
Qed.

(** ** The two tiers under [invalidate] and the pruning pass *)

Section StoreProperties.
Context `{Backends}.

Lemma with_session_list_same (m : SessionManager) :
  with_session_list (sessions m) m = m.
Proof. now destruct m. Qed.

Lemma with_sessions_same (st : Store) : with_sessions (st_sessions st) st = st.
Proof. now destruct st. Qed.

Lemma remove_local_absent (tok : string) (l : list Session) :
  List.filter (fun s => String.eqb (token s) tok) l = [] ->
  remove_local tok l = l.
Proof.
  intros Hnone. apply filter_all. intros s Hs.
  rewrite filter_none in Hnone. now rewrite (Hnone s Hs).
Qed.

Lemma delete_by_token_absent (tok : string) (rs : list SessionRecord) :
  List.filter (fun r => String.eqb (rec_token r) tok) rs = [] ->
  delete_by_token tok rs = rs.
Proof.
  intros Hnone. apply filter_all. intros r Hr.
  rewrite filter_none in Hnone. now rewrite (Hnone r Hr).
Qed.

Lemma remove_local_twice (tok : string) (l : list Session) :
  remove_local tok (remove_local tok l) = remove_local tok l.
Proof.
  unfold remove_local. rewrite filter_twice. apply filter_ext.
  intros s. now destruct (String.eqb (token s) tok).
Qed.

Lemma delete_by_token_twice (tok : string) (rs : list SessionRecord) :
  delete_by_token tok (delete_by_token tok rs) = delete_by_token tok rs.
Proof.
  unfold delete_by_token. rewrite filter_twice. apply filter_ext.
  intros r. now destruct (String.eqb (rec_token r) tok).
Qed.

Lemma invalidate_open (tok : string) (w : World) :
  transactions_open w ->
  invalidate tok w =
    ((with_session_list (remove_local tok (sessions (fst w))) (fst w),
      store_after_invalidate tok w),
     Ret (negb (deletion_fails w))).
Proof.
  destruct w as [m st].
  unfold transactions_open, invalidate, store_after_invalidate, deletion_fails.
  simpl. intros Hopen.
  destruct (database_connection m); [|reflexivity].
  destruct (Hopen eq_refl) as [-> ->].
  destruct (st_faulty st OpDelete), (st_faulty st OpCommit); reflexivity.
Qed.

Lemma transactions_open_after_invalidate (tok : string) (w : World) :
  transactions_open w ->
  transactions_open
    (with_session_list (remove_local tok (sessions (fst w))) (fst w),
     store_after_invalidate tok w).
Proof.
  destruct w as [m st]. unfold transactions_open, store_after_invalidate.
  simpl. intros Hopen Hconn.
  destruct (database_connection m && negb (deletion_fails (m, st)));
    simpl; auto.
Qed.

Lemma pruned_from_refl (w : World) : pruned_from w w.
Proof.
  repeat split; try reflexivity.
  - exists (fun _ => true). symmetry. now apply filter_all.
  - exists (fun _ => true). symmetry. now apply filter_all.
Qed.

Lemma pruned_from_trans (w1 w2 w3 : World) :
  pruned_from w1 w2 -> pruned_from w2 w3 -> pruned_from w1 w3.
Proof.
  intros (Hc1 & Hd1 & Hf1 & Hp1 & [k1 Hs1] & [q1 Hr1])
         (Hc2 & Hd2 & Hf2 & Hp2 & [k2 Hs2] & [q2 Hr2]).
  repeat split; try congruence.
  - exists (fun s => k1 s && k2 s). now rewrite Hs2, Hs1, filter_twice.
  - exists (fun r => q1 r && q2 r). now rewrite Hr2, Hr1, filter_twice.
Qed.

(** Whatever [invalidate] answers, it only takes sessions and records
    away, and it leaves the login counter alone. *)
Lemma invalidate_pruned (tok : string) (w : World) :
  pruned_from w (fst (invalidate tok w)) /\
  logins_since_prune (fst (fst (invalidate tok w))) =
    logins_since_prune (fst w).
Proof.
  destruct w as [m st]. unfold invalidate.
  assert (Hloc : pruned_from (m, st)
            (with_session_list (remove_local tok (sessions m)) m, st)).
  { repeat split; simpl; try reflexivity.
    - now eexists.
    - exists (fun _ => true). symmetry. now apply filter_all. }
  assert (Hboth : pruned_from (m, st)
            (with_session_list (remove_local tok (sessions m)) m,
             with_sessions (delete_by_token tok (st_sessions st)) st)).
  { repeat split; simpl; try reflexivity; now eexists. }
  destruct (database_connection m); [|now split].
  destruct (st_faulty st OpConnect); [split; [apply pruned_from_refl|easy]|].
  destruct (st_faulty st OpDelete || st_faulty st OpCommit),
           (st_faulty st OpClose); now split.
Qed.

Lemma invalidate_each_pruned (tokens : list string) (w : World) :
  pruned_from w (fst (invalidate_each tokens w)) /\
  logins_since_prune (fst (fst (invalidate_each tokens w))) =
    logins_since_prune (fst w).
Proof.
  revert w. induction tokens as [|tok rest IH]; intros w; simpl.
  - split; [apply pruned_from_refl | reflexivity].
  - destruct (invalidate_pruned tok w) as [Hp Hl].
    destruct (invalidate tok w) as [w' [b|e]]; simpl in *.
    + destruct (IH w') as [Hp' Hl']. split.
      * now apply (pruned_from_trans _ w').
      * congruence.
    + now split.
Qed.

(** With transactions that open and close, the loop ends without an
    exception and has removed the sessions of every token of the list. *)
Lemma invalidate_each_open (tokens : list string) (w : World) :
  transactions_open w ->
  snd (invalidate_each tokens w) = Ret tt /\
  sessions (fst (fst (invalidate_each tokens w))) =
    List.filter (fun s => negb (str_in (token s) tokens)) (sessions (fst w)).
Proof.
  revert w. induction tokens as [|tok rest IH]; intros w Hopen; simpl.
  - split; [reflexivity|]. symmetry. now apply filter_all.
  - rewrite invalidate_open by exact Hopen.
    destruct (IH _ (transactions_open_after_invalidate tok w Hopen))
      as [Hret Hsess].
    split; [exact Hret|]. rewrite Hsess. simpl.
    unfold remove_local. rewrite filter_twice. apply filter_ext.
    intros s. unfold str_in. simpl.
    now destruct (String.eqb (token s) tok).
Qed.

Lemma cleanup_pruned (now : Z) (w : World) :
  pruned_from w (fst (cleanup_sessions now w)) /\
  logins_since_prune (fst (fst (cleanup_sessions now w))) = 0.
Proof.
  destruct w as [m st]. unfold cleanup_sessions.
  match goal with
  | |- context [invalidate_each ?toks ?w0] =>
      destruct (invalidate_each_pruned toks w0) as [Hp Hl]
  end.
  split; [|now rewrite Hl].
  eapply pruned_from_trans; [|exact Hp].
  repeat split; simpl; try reflexivity;
    exists (fun _ => true); symmetry; now apply filter_all.
Qed.

(** The pruning pass, when transactions open and close: no exception, and
    no dead session is left in memory. *)
Lemma cleanup_open (now : Z) (w : World) :
  transactions_open w ->
  snd (cleanup_sessions now w) = Ret tt /\
  Forall (fun s => is_alive now s = true)
    (sessions (fst (fst (cleanup_sessions now w)))).
Proof.
  destruct w as [m st]. unfold cleanup_sessions. intros Hopen.
  match goal with
  | |- context [invalidate_each ?toks ?w0] =>
      destruct (invalidate_each_open toks w0) as [Hret Hsess]
  end.
  { exact Hopen. }
  split; [exact Hret|]. rewrite Hsess. simpl.
  apply List.Forall_forall. intros s Hs.
  apply filter_In in Hs as [Hin Hnot].
  destruct (is_alive now s) eqn:Halive; [reflexivity|].
  apply negb_true_iff in Hnot.
  assert (Hyes : str_in (token s)
            (List.map token
               (List.filter (fun s => negb (is_alive now s)) (sessions m)))
            = true).
  { apply str_in_In. apply in_map. apply filter_In. now rewrite Halive. }
  congruence.
Qed.

End StoreProperties.

Section InvalidateProperties.
Context `{Backends}.

Lemma deletion_fails_after_invalidate (tok : string) (w : World) :
  deletion_fails
    (with_session_list (remove_local tok (sessions (fst w))) (fst w),
     store_after_invalidate tok w) = deletion_fails w.
Proof.
  destruct w as [m st]. unfold store_after_invalidate. simpl.
  destruct (database_connection m && negb (deletion_fails (m, st)));
    reflexivity.
Qed.

(** What [invalidate] does when its transaction can be opened and
    released, or when there is no connection: it returns for every token;
    it answers [True] unless the deletion in the durable store fails, and
    then it answers [False], leaves the store as it was and keeps the
    removal from memory.  After a success a second call succeeds again
    and changes nothing, and a token that is in neither tier is
    invalidated with success and without any change.  Outside this
    condition [invalidate] raises. *)
Theorem invalidate_total_idempotent (tok : string) (w : World) :
  transactions_open w ->
  let w' := (with_session_list (remove_local tok (sessions (fst w))) (fst w),
             store_after_invalidate tok w) in
  invalidate tok w = (w', Ret (negb (deletion_fails w))) /\
  (deletion_fails w = true -> snd w' = snd w) /\
  (deletion_fails w = false -> invalidate tok w' = (w', Ret true)) /\
  (deletion_fails w = false -> absent tok w -> invalidate tok w = (w, Ret true)).
Proof.
  intros Hopen w'. split; [now apply invalidate_open|].
  split; [|split].
  - intros Hfail. subst w'. unfold store_after_invalidate. simpl.
    rewrite Hfail. now rewrite andb_false_r.
  - intros Hok. subst w'. destruct w as [m st].
    unfold invalidate, store_after_invalidate, deletion_fails,
      transactions_open in *.
    simpl in *.
    destruct (database_connection m) eqn:Hconn; simpl in *.
    + destruct (Hopen eq_refl) as [Hco Hcl].
      rewrite Hok. simpl. rewrite Hok, Hco, Hcl.
      rewrite remove_local_twice, delete_by_token_twice. reflexivity.
    + now rewrite remove_local_twice.
  - intros Hok [Hmem Hstore].
    rewrite invalidate_open by exact Hopen.
    rewrite Hok. simpl. f_equal. destruct w as [m st]. simpl in *.
    rewrite remove_local_absent by exact Hmem.
    rewrite with_session_list_same. f_equal.
    unfold store_after_invalidate. simpl. rewrite Hok. simpl.
    destruct (database_connection m); simpl; [|reflexivity].
    rewrite delete_by_token_absent by exact Hstore.
    apply with_sessions_same.
Qed.

(** When the call that opens the transaction raises, [invalidate] raises
    itself, from its [finally] clause, and has removed nothing. *)
Lemma invalidate_connect_raises (tok : string) (m : SessionManager)
    (st : Store) :
  database_connection m = true -> st_faulty st OpConnect = true ->
  invalidate tok (m, st) = ((m, st), Raise UnboundLocalError).
Proof. intros Hconn Hfault. unfold invalidate. now rewrite Hconn, Hfault. Qed.

End InvalidateProperties.

(** ** The in-memory list *)

Lemma live_with_app (now : Z) (tok : string) (l1 l2 : list Session) :
  live_with now tok (l1 ++ l2) =
  (live_with now tok l1 ++ live_with now tok l2)%list.
Proof. unfold live_with. apply List.filter_app. Qed.

Lemma find_live_None (now : Z) (tok : string) (l : list Session) :
  find_live now tok l = None <-> live_with now tok l = [].
Proof.
  unfold live_with. induction l as [|s l IH]; simpl; [easy|].
  destruct (is_alive now s && String.eqb (token s) tok).
  - split; discriminate.
  - destruct (find_live now tok l) as [[i s']|].
    + split; [discriminate|]. intros Hnil. apply IH in Hnil. discriminate.
    + split; [intros _; now apply IH | reflexivity].
Qed.

Lemma find_live_Some (now : Z) (tok : string) (l : list Session)
    (i : nat) (s : Session) :
  find_live now tok l = Some (i, s) ->
  l !! i = Some s /\ is_alive now s = true /\ token s = tok.
Proof.
  revert i. induction l as [|x l IH]; simpl; intros i Hfind; [discriminate|].
  destruct (is_alive now x && String.eqb (token x) tok) eqn:Hx.
  - injection Hfind as <- <-. apply andb_true_iff in Hx as [Ha Ht].
    apply String.eqb_eq in Ht. now repeat split.
  - destruct (find_live now tok l) as [[j s']|]; [|discriminate].
    injection Hfind as <- <-. now apply IH.
Qed.

Lemma live_with_remove_local (now : Z) (tok : string) (l : list Session) :
  live_with now tok (remove_local tok l) = [].
Proof.
  unfold live_with, remove_local. rewrite filter_twice.
  apply filter_none. intros s _.
  destruct (String.eqb (token s) tok); simpl; [reflexivity|].
  apply andb_false_r.
Qed.

Lemma one_live_nil (now : Z) : one_live_per_token now [].
Proof. intros tok. simpl. lia. Qed.

Lemma one_live_later (now later : Z) (l : list Session) :
  now <= later -> one_live_per_token now l -> one_live_per_token later l.
Proof.
  intros Hle Hinv tok. specialize (Hinv tok).
  etransitivity; [|exact Hinv]. unfold live_with.
  apply filter_length_mono. intros s Hs.
  apply andb_true_iff in Hs as [Ha Ht]. apply andb_true_iff. split.
  - now apply (is_alive_earlier now later).
  - exact Ht.
Qed.

Lemma one_live_filter (now : Z) (keep : Session -> bool) (l : list Session) :
  one_live_per_token now l -> one_live_per_token now (List.filter keep l).
Proof.
  intros Hinv tok. specialize (Hinv tok).
  etransitivity; [|exact Hinv]. unfold live_with.
  rewrite filter_twice.
  apply filter_length_mono. intros s Hs.
  apply andb_true_iff in Hs as [_ Hs]. exact Hs.
Qed.

Lemma one_live_append (now : Z) (l : list Session) (s : Session) :
  live_with now (token s) l = [] ->
  one_live_per_token now l -> one_live_per_token now (l ++ [s]).
Proof.
  intros Hnone Hinv tok. rewrite live_with_app, length_app.
  destruct (String.eqb (token s) tok) eqn:Htok.
  - apply String.eqb_eq in Htok. subst tok. rewrite Hnone. simpl.
    destruct (is_alive now s && String.eqb (token s) (token s)); simpl; lia.
  - specialize (Hinv tok). simpl. rewrite Htok, andb_false_r. simpl. lia.
Qed.

(** Putting a session in the place of a live one with the same token adds
    no live session to any token. *)
Lemma live_with_insert (now : Z) (tok : string) (l : list Session)
    (i : nat) (s s' : Session) :
  l !! i = Some s -> is_alive now s = true -> token s' = token s ->
  (length (live_with now tok (<[i := s']> l)) <=
   length (live_with now tok l))%nat.
Proof.
  intros Hi Halive Htok. revert i Hi.
  induction l as [|x l IH]; intros [|i] Hi; simpl in *; try discriminate.
  - injection Hi as ->. rewrite Htok, Halive. simpl.
    destruct (String.eqb (token s) tok); simpl.
    + destruct (is_alive now s'); simpl; lia.
    + rewrite andb_false_r. lia.
  - specialize (IH i Hi). fold (live_with now tok (<[i := s']> l)).
    fold (live_with now tok l).
    destruct (is_alive now x && String.eqb (token x) tok); simpl; lia.
Qed.

Lemma one_live_stamp (now : Z) (l : list Session) (i : nat) (s : Session) :
  l !! i = Some s -> is_alive now s = true ->
  one_live_per_token now l ->
  one_live_per_token now (<[i := set_last_access now s]> l).
Proof.
  intros Hi Halive Hinv tok. specialize (Hinv tok).
  etransitivity; [|exact Hinv].
  now apply (live_with_insert now tok l i s).
Qed.

Lemma list_step_one_live (now : Z) (l l' : list Session) :
  list_step now l l' ->
  one_live_per_token now l -> one_live_per_token now l'.
Proof.
  induction 1 as [l | keep l | l s Hnone _ | l i s Hi Halive
                 | l1 l2 l3 _ IH12 _ IH23]; intros Hinv.
  - exact Hinv.
  - now apply one_live_filter.
  - now apply one_live_append.
  - now apply one_live_stamp.
  - auto.
Qed.

Lemma list_step_live_or_stamped (now : Z) (l l' : list Session) :
  list_step now l l' ->
  live_or_stamped now l -> live_or_stamped now l'.
Proof.
  unfold live_or_stamped.
  induction 1 as [l | keep l | l s _ Hs | l i s Hi Halive
                 | l1 l2 l3 _ IH12 _ IH23]; intros Hall.
  - exact Hall.
  - rewrite List.Forall_forall in *. intros s Hs.
    apply filter_In in Hs as [Hs _]. now apply Hall.
  - apply Forall_app. split; [exact Hall|]. now constructor.
  - apply Forall_insert; [exact Hall|]. now right.
  - auto.
Qed.

(** One live session per token, read on positions: two live sessions with
    the same token sit at the same place. *)
Lemma one_live_positions (now : Z) (l : list Session) :
  one_live_per_token now l ->
  forall i j s1 s2,
    l !! i = Some s1 -> l !! j = Some s2 -> token s1 = token s2 ->
    is_alive now s1 = true -> is_alive now s2 = true -> i = j.
Proof.
  assert (Hin : forall (l : list Session) (k : nat) (s : Session),
             l !! k = Some s -> is_alive now s = true ->
             (1 <= length (live_with now (token s) l))%nat).
  { intros l0 k s Hk Ha.
    assert (Hmem : In s (live_with now (token s) l0)).
    { apply filter_In. split.
      - apply list_elem_of_In. now apply (list_elem_of_lookup_2 _ k).
      - now rewrite Ha, String.eqb_refl. }
    destruct (live_with now (token s) l0); [destruct Hmem | simpl; lia]. }
  induction l as [|x l IH]; intros Hinv i j s1 s2 Hi Hj Htok Ha1 Ha2.
  - discriminate.
  - assert (Htail : one_live_per_token now l).
    { intros tok. specialize (Hinv tok). simpl in Hinv.
      destruct (is_alive now x && String.eqb (token x) tok);
        simpl in Hinv; lia. }
    destruct i as [|i], j as [|j]; simpl in *.
    + reflexivity.
    + injection Hi as ->. specialize (Hinv (token s1)). simpl in Hinv.
      rewrite Ha1, String.eqb_refl in Hinv. simpl in Hinv.
      pose proof (Hin l j s2 Hj Ha2) as Hone. rewrite <- Htok in Hone. lia.
    + injection Hj as ->. specialize (Hinv (token s2)). simpl in Hinv.
      rewrite Ha2, String.eqb_refl in Hinv. simpl in Hinv.
      pose proof (Hin l i s1 Hi Ha1) as Hone. rewrite Htok in Hone. lia.
    + f_equal. now apply (IH Htail i j s1 s2).
Qed.

(** ** What each operation does to the in-memory list *)

Section SessionProperties.
Context `{Backends}.

Lemma same_settings_refl (w : World) : same_settings w w.
Proof. now repeat split. Qed.

Lemma same_settings_trans (w1 w2 w3 : World) :
  same_settings w1 w2 -> same_settings w2 w3 -> same_settings w1 w3.
Proof.
  intros (Hc1 & Hd1 & Hl1) (Hc2 & Hd2 & Hl2). repeat split; congruence.
Qed.

Lemma pruned_from_list_step (now : Z) (w w' : World) :
  pruned_from w w' -> list_step now (sessions (fst w)) (sessions (fst w')).
Proof.
  intros (_ & _ & _ & _ & [keep Hkeep] & _). rewrite Hkeep. constructor.
Qed.

Lemma invalidate_settings (tok : string) (w : World) :
  same_settings w (fst (invalidate tok w)).
Proof.
  destruct (invalidate_pruned tok w) as [(Hc & Hd & _) Hl]. now repeat split.
Qed.

Lemma invalidate_list_step (now : Z) (tok : string) (w : World) :
  list_step now (sessions (fst w)) (sessions (fst (fst (invalidate tok w)))).
Proof. apply pruned_from_list_step, invalidate_pruned. Qed.

(** When [invalidate] returns, the sessions of the token are gone. *)
Lemma invalidate_returns (tok : string) (w w' : World) (b : bool) :
  invalidate tok w = (w', Ret b) ->
  sessions (fst w') = remove_local tok (sessions (fst w)).
Proof.
  destruct w as [m st]. unfold invalidate.
  destruct (database_connection m).
  - destruct (st_faulty st OpConnect); [discriminate|].
    destruct (st_faulty st OpDelete || st_faulty st OpCommit),
             (st_faulty st OpClose); try discriminate;
      intros Heq; injection Heq as <- _; reflexivity.
  - intros Heq. injection Heq as <- _. reflexivity.
Qed.

Lemma get_local_session_from_db_token (now : Z) (tok : string) (w : World)
    (s : Session) :
  get_local_session_from_db now tok w = Ret (Some s) ->
  token s = tok /\
  session_lifetime s = cfg_session_lifetime (auth_config (fst w)).
Proof.
  destruct w as [m st]. unfold get_local_session_from_db.
  destruct (negb (database_connection m)); [discriminate|].
  destruct (st_faulty st OpConnect); [discriminate|].
  destruct (st_faulty st OpQuery).
  { destruct (st_faulty st OpClose); discriminate. }
  destruct (query_by_token tok st) as [db_record|];
    destruct (st_faulty st OpClose); try discriminate.
  intros Heq. injection Heq as <-. now split.
Qed.

(** [get_session], whatever it answers: what it does to the list, and what
    the answer tells about the list it leaves. *)
Lemma get_session_facts (now : Z) (tok : string) (w w' : World)
    (r : result (option SessionRef)) :
  enabled (auth_config (fst w)) = true ->
  get_session now tok w = (w', r) ->
  list_step now (sessions (fst w)) (sessions (fst w')) /\
  same_settings w w' /\
  match r with
  | Ret (Some (Cached i s)) =>
      sessions (fst w') !! i = Some s /\ is_alive now s = true /\
      token s = tok
  | Ret (Some (Detached s)) => is_alive now s = false
  | Ret None => live_with now tok (sessions (fst w')) = []
  | Raise _ => True
  end.
Proof.
  destruct w as [m st]. unfold get_session. cbn [fst snd]. intros Hen.
  rewrite Hen. cbn [negb].
  destruct (find_live now tok (sessions m)) as [[i s]|] eqn:Hfind.
  { intros Heq. injection Heq as <- <-.
    split; [constructor|]. split; [apply same_settings_refl|].
    now apply find_live_Some. }
  apply find_live_None in Hfind.
  destruct (get_local_session_from_db now tok (m, st)) as [[s|]|e] eqn:Hdb.
  - apply get_local_session_from_db_token in Hdb as [Htok _].
    destruct (is_alive now s) eqn:Halive.
    + intros Heq. injection Heq as <- <-. simpl.
      split; [|split; [now repeat split|]].
      * apply step_append; [now rewrite Htok | now left].
      * split; [|now split].
        now apply list_lookup_middle.
    + pose proof (invalidate_list_step now tok (m, st)) as Hstep.
      pose proof (invalidate_settings tok (m, st)) as Hset.
      destruct (invalidate tok (m, st)) as [w'' [b|e]];
        intros Heq; injection Heq as <- <-; simpl in *;
        (split; [exact Hstep | split; [exact Hset | first [exact Halive | exact I]]]).
  - pose proof (invalidate_list_step now tok (m, st)) as Hstep.
    pose proof (invalidate_settings tok (m, st)) as Hset.
    destruct (invalidate tok (m, st)) as [w'' [b|e]] eqn:Hinv;
      intros Heq; injection Heq as <- <-; cbn [fst snd] in *.
    + split; [exact Hstep|]. split; [exact Hset|].
      rewrite (invalidate_returns _ _ _ _ Hinv).
      apply live_with_remove_local.
    + split; [exact Hstep | split; [exact Hset | exact I]].
  - intros Heq. injection Heq as <- <-.
    split; [constructor|]. split; [apply same_settings_refl | exact I].
Qed.

Lemma get_session_disabled (now : Z) (tok : string) (w : World) :
  enabled (auth_config (fst w)) = false ->
  get_session now tok w = (w, Ret None).
Proof.
  destruct w as [m st]. unfold get_session. simpl. now intros ->.
Qed.

Lemma revalidate_session (now : Z) (s : Session) (st : Store) :
  fst (fst (revalidate now s st)) =
  if is_alive now s then set_last_access now s else s.
Proof.
  unfold revalidate. destruct (is_alive now s); simpl; [|reflexivity].
  destruct (database s); [|reflexivity].
  destruct (st_faulty st OpConnect); [reflexivity|].
  destruct (st_faulty st OpClose); reflexivity.
Qed.

(** Revalidating the object [get_session] handed out stamps it where it
    sits, and touches no other session. *)
Lemma revalidate_ref_facts (now : Z) (r : SessionRef) (w : World) :
  match r with
  | Cached i s => sessions (fst w) !! i = Some s /\ is_alive now s = true
  | Detached _ => True
  end ->
  list_step now (sessions (fst w))
    (sessions (fst (fst (revalidate_ref now r w)))) /\
  same_settings w (fst (revalidate_ref now r w)).
Proof.
  destruct w as [m st]. unfold revalidate_ref.
  pose proof (revalidate_session now (ref_session r) st) as Hs.
  destruct (revalidate now (ref_session r) st) as [[s' st'] res].
  simpl in Hs. subst s'.
  destruct r as [i s|s]; simpl; intros Href.
  - destruct Href as [Hi Halive]. rewrite Halive.
    destruct res; simpl; (split; [now apply step_stamp | now repeat split]).
  - destruct res; simpl; (split; [constructor | now repeat split]).
Qed.

Lemma store_login_record_sessions (now : Z) (tok user_name : string)
    (grps : list string) (w : World) :
  fst (fst (store_login_record now tok user_name grps w)) = fst w.
Proof.
  destruct w as [m st]. unfold store_login_record.
  destruct (database_connection m); [|reflexivity].
  destruct (st_faulty st OpConnect); [reflexivity|].
  destruct (st_faulty st OpClose); reflexivity.
Qed.

Lemma authenticate_facts (now : Z) (fresh auth_string : string) (w : World) :
  enabled (auth_config (fst w)) = true ->
  list_step now (sessions (fst w))
    (sessions (fst (fst (authenticate now fresh auth_string w)))) /\
  same_settings w (fst (authenticate now fresh auth_string w)).
Proof.
  intros Hen. unfold authenticate.
  destruct (validate (auth_config (fst w)) auth_string) as [[v|]|e];
    try (split; [constructor | apply same_settings_refl]).
  destruct (get_db_session_tokens (v_username v) w) as [[tokens|]|e];
    try (split; [constructor | apply same_settings_refl]).
  set (tok := match tokens with t :: _ => t | [] => fresh end).
  destruct (get_session now tok w) as [w3 r] eqn:Hget.
  destruct (get_session_facts now tok w w3 r Hen Hget)
    as (Hstep & Hset & Hr).
  destruct r as [[[i s|s]|]|e]; cbn beta iota zeta.
  - destruct (revalidate_ref_facts now (Cached i s) w3) as [Hstep' Hset'].
    { now destruct Hr as (Hi & Ha & _). }
    destruct (revalidate_ref now (Cached i s) w3) as [w4 [s'|e]]; simpl in *;
      (split; [now apply (step_then _ _ _ _ Hstep)
              | now apply (same_settings_trans _ w3)]).
  - destruct (revalidate_ref_facts now (Detached s) w3 I) as [Hstep' Hset'].
    destruct (revalidate_ref now (Detached s) w3) as [w4 [s'|e]]; simpl in *;
      (split; [now apply (step_then _ _ _ _ Hstep)
              | now apply (same_settings_trans _ w3)]).
  - match goal with
    | |- context [store_login_record ?n ?t ?u ?g ?w4] =>
        pose proof (store_login_record_sessions n t u g w4) as Hsame;
        destruct (store_login_record n t u g w4) as [w5 [u0|e]]
    end; simpl in *; rewrite Hsame; simpl;
      (split;
       [ apply (step_then _ _ _ _ Hstep);
         apply step_append; [exact Hr | now right]
       | unfold same_settings in *; rewrite Hsame; exact Hset ]).
  - now split.
Qed.

Lemma count_login_facts (now : Z) (w : World) :
  list_step now (sessions (fst w)) (sessions (fst (fst (count_login now w)))) /\
  auth_config (fst (fst (count_login now w))) = auth_config (fst w) /\
  database_connection (fst (fst (count_login now w))) =
    database_connection (fst w).
Proof.
  destruct w as [m st]. unfold count_login. simpl.
  destruct (logins_until_cleanup (auth_config m) <=? logins_since_prune m + 1).
  - destruct (cleanup_pruned now (with_logins (logins_since_prune m + 1) m, st))
      as [Hp _].
    split; [now apply (pruned_from_list_step now) in Hp|].
    destruct Hp as (Hc & Hd & _). now split.
  - simpl. split; [constructor | now split].
Qed.

Lemma create_or_get_session_list_step (now : Z) (fresh auth_string : string)
    (w : World) :
  list_step now (sessions (fst w))
    (sessions (fst (fst (create_or_get_session now fresh auth_string w)))).
Proof.
  unfold create_or_get_session.
  destruct (enabled (auth_config (fst w))) eqn:Hen; simpl; [|constructor].
  destruct (count_login_facts now w) as (Hstep & Hc & _).
  destruct (count_login now w) as [w2 [u|e]]; simpl in *; [|exact Hstep].
  apply (step_then _ _ _ _ Hstep).
  apply authenticate_facts. now rewrite Hc.
Qed.

Lemma after_list_step (now : Z) (c : Call) (w : World) :
  list_step now (sessions (fst w)) (sessions (fst (after now c w))).
Proof.
  destruct c as [fresh auth_string|tok|tok|]; simpl.
  - apply create_or_get_session_list_step.
  - destruct (enabled (auth_config (fst w))) eqn:Hen.
    + destruct (get_session now tok w) as [w' r] eqn:Hget.
      now destruct (get_session_facts now tok w w' r Hen Hget).
    + rewrite get_session_disabled by exact Hen. constructor.
  - apply invalidate_list_step.
  - apply pruned_from_list_step, cleanup_pruned.
Qed.

End SessionProperties.

(** ** Sequences of calls *)

Section Invariant.
Context `{Backends}.

Lemma reachable_one_live (cfg : AuthConfig) (now : Z) (w : World) :
  reachable cfg now w -> one_live_per_token now (sessions (fst w)).
Proof.
  induction 1 as [now st | now now' c w _ IH Hle | now now' w _ IH Hle
                 | now m st st' _ IH | now connection m st _ IH].
  - apply one_live_nil.
  - apply (list_step_one_live now' _ _ (after_list_step now' c w)).
    now apply (one_live_later now).
  - now apply (one_live_later now).
  - exact IH.
  - exact IH.
Qed.

(** C9: at most one live in-memory session per token.  In every world the
    manager can reach through calls of [create_or_get_session],
    [get_session], [invalidate] and the pruning pass, whether they return
    or raise, two sessions of the in-memory list that share a token and
    are both alive are one and the same entry of the list. *)
Theorem one_live_session_per_token (cfg : AuthConfig) (now : Z) (w : World) :
  reachable cfg now w ->
  forall i j s1 s2,
    sessions (fst w) !! i = Some s1 -> sessions (fst w) !! j = Some s2 ->
    token s1 = token s2 ->
    is_alive now s1 = true -> is_alive now s2 = true ->
    i = j.
Proof.
  intros Hreach. apply one_live_positions.
  now apply (reachable_one_live cfg).
Qed.

End Invariant.

(** ** The login counter *)

Section Counter.
Context `{Backends}.

(** C4, as the code has it: the counter counts the calls of
    [create_or_get_session] made while authentication is enabled, whatever
    their outcome, a rejected credential included.  A call that brings the
    counter to [logins_until_cleanup] runs the pruning pass first and
    leaves the counter at 0, and no dead session is in memory after it
    (transactions opening and closing, lifetimes not negative); any other
    call leaves the counter one higher. *)
Theorem login_counter_counts_every_call (now : Z) (fresh auth_string : string)
    (w : World) :
  enabled (auth_config (fst w)) = true ->
  transactions_open w ->
  let w' := fst (create_or_get_session now fresh auth_string w) in
  if logins_until_cleanup (auth_config (fst w)) <=? logins_since_prune (fst w) + 1
  then logins_since_prune (fst w') = 0 /\
       Forall (fun s => 0 <= session_lifetime s -> is_alive now s = true)
         (sessions (fst w'))
  else logins_since_prune (fst w') = logins_since_prune (fst w) + 1.
Proof.
  intros Hen Hopen w'. subst w'. unfold create_or_get_session.
  rewrite Hen. cbn [negb]. destruct w as [m st]. unfold count_login.
  cbn [fst snd with_logins logins_since_prune auth_config] in *.
  destruct (logins_until_cleanup (auth_config m) <=? logins_since_prune m + 1).
  - set (w1 := (with_logins (logins_since_prune m + 1) m, st)).
    destruct (cleanup_open now w1 Hopen) as [Hret Hlive].
    destruct (cleanup_pruned now w1) as [(Hc & _) Hzero].
    destruct (cleanup_sessions now w1) as [w2 r]. simpl in Hret. subst r.
    cbn [fst snd] in *.
    assert (Hen2 : enabled (auth_config (fst w2)) = true) by now rewrite Hc.
    destruct (authenticate_facts now fresh auth_string w2 Hen2)
      as [Hstep (_ & _ & Hl)].
    split; [congruence|].
    assert (Hstamped : live_or_stamped now (sessions (fst w2))).
    { unfold live_or_stamped. eapply List.Forall_impl; [|exact Hlive].
      intros s Hs. now left. }
    apply (list_step_live_or_stamped _ _ _ Hstep) in Hstamped.
    unfold live_or_stamped in Hstamped.
    eapply List.Forall_impl; [|exact Hstamped].
    intros s [Ha|Hnow] Hlife; [exact Ha|].
    apply is_alive_spec. lia.
  - set (w1 := (with_logins (logins_since_prune m + 1) m, st)).
    destruct (authenticate_facts now fresh auth_string w1 Hen)
      as [_ (_ & _ & Hl)].
    exact Hl.
Qed.

End Counter.

(** ** Logins *)

Section Logins.
Context `{Backends}.

(** The conditions of a first login with a working store: the store
    answers, it knows no token for the user, and the token that would be
    generated is in use in neither tier. *)
Lemma authenticate_first_login (now : Z) (fresh auth_string : string)
    (w : World) (v : Validation) :
  enabled (auth_config (fst w)) = true ->
  database_connection (fst w) = true ->
  st_faulty (snd w) OpConnect = false ->
  st_faulty (snd w) OpQuery = false ->
  st_faulty (snd w) OpClose = false ->
  validate (auth_config (fst w)) auth_string = Ret (Some v) ->
  query_tokens_of (v_username v) (snd w) = [] ->
  query_by_token fresh (snd w) = None ->
  live_with now fresh (sessions (fst w)) = [] ->
  snd (authenticate now fresh auth_string w) =
    Ret (Granted
           (new_Session now fresh (v_username v) (default [] (v_groups v))
              (cfg_session_lifetime (auth_config (fst w)))
              (default false (v_root v)) true None)).
Proof.
  destruct w as [m st]. cbn [fst snd].
  intros Hen Hconn Hco Hq Hcl Hval Htokens Hfresh Hlive.
  assert (Hopen : transactions_open (m, st)) by (intros _; now split).
  unfold authenticate. cbn [fst snd]. rewrite Hval.
  unfold get_db_session_tokens. rewrite Hconn, Hco, Hq, Hcl, Htokens.
  cbn [negb].
  unfold get_session. rewrite Hen. cbn [negb].
  apply find_live_None in Hlive. rewrite Hlive.
  unfold get_local_session_from_db.
  rewrite Hconn, Hco, Hq, Hcl, Hfresh. cbn [negb].
  rewrite invalidate_open by exact Hopen. cbn [fst snd].
  unfold store_login_record, store_after_invalidate.
  cbn [fst snd with_session_list database_connection auth_config].
  rewrite Hconn.
  destruct (true && negb (deletion_fails (m, st)));
    cbn [with_sessions st_faulty]; rewrite Hco, Hcl; reflexivity.
Qed.

Lemma pruned_keeps_first_login (now : Z) (fresh user_name : string)
    (w w' : World) :
  pruned_from w w' ->
  query_tokens_of user_name (snd w) = [] ->
  query_by_token fresh (snd w) = None ->
  live_with now fresh (sessions (fst w)) = [] ->
  query_tokens_of user_name (snd w') = [] /\
  query_by_token fresh (snd w') = None /\
  live_with now fresh (sessions (fst w')) = [].
Proof.
  intros (_ & _ & _ & _ & [keep Hkeep] & [keep' Hkeep']) Htokens Hfresh Hlive.
  unfold query_tokens_of, query_by_token, live_with in *.
  rewrite Hkeep, Hkeep'. repeat split.
  - apply map_eq_nil in Htokens. rewrite filter_none in Htokens.
    replace (List.filter _ (List.filter keep' (st_sessions (snd w))))
      with (@nil SessionRecord); [reflexivity|].
    symmetry. apply filter_none. intros r Hr.
    apply List.filter_In in Hr as [Hr _]. now apply Htokens.
  - destruct (List.find _ (List.filter keep' (st_sessions (snd w))))
      as [r|] eqn:Hfind; [|reflexivity].
    apply List.find_some in Hfind as [Hr Hmatch].
    apply List.filter_In in Hr as [Hr _].
    now rewrite (List.find_none _ _ Hfresh r Hr) in Hmatch.
  - rewrite filter_none in Hlive. apply filter_none. intros s Hs.
    apply List.filter_In in Hs as [Hs _]. now apply Hlive.
Qed.

(** With transactions that open and close, the counting step returns, and
    it only prunes. *)
Lemma count_login_open (now : Z) (w : World) :
  transactions_open w ->
  exists w2, count_login now w = (w2, Ret tt) /\ pruned_from w w2.
Proof.
  intros Hopen. destruct w as [m st]. unfold count_login.
  set (w1 := (with_logins (logins_since_prune m + 1) m, st)).
  assert (Hp1 : pruned_from (m, st) w1).
  { repeat split; simpl; try reflexivity;
      exists (fun _ => true); symmetry; now apply filter_all. }
  destruct (logins_until_cleanup (auth_config (with_logins _ m)) <=? _).
  - destruct (cleanup_open now w1 Hopen) as [Hret _].
    destruct (cleanup_pruned now w1) as [Hp _].
    destruct (cleanup_sessions now w1) as [w2 r]. simpl in Hret. subst r.
    exists w2. split; [reflexivity|].
    now apply (pruned_from_trans _ w1).
  - exists w1. now split.
Qed.

(** A first login through [create_or_get_session]: the session is made
    from what the validator returned. *)
Lemma create_or_get_session_first_login (now : Z)
    (fresh auth_string : string) (w : World) (v : Validation) :
  enabled (auth_config (fst w)) = true ->
  database_connection (fst w) = true ->
  st_faulty (snd w) OpConnect = false ->
  st_faulty (snd w) OpQuery = false ->
  st_faulty (snd w) OpClose = false ->
  validate (auth_config (fst w)) auth_string = Ret (Some v) ->
  query_tokens_of (v_username v) (snd w) = [] ->
  query_by_token fresh (snd w) = None ->
  live_with now fresh (sessions (fst w)) = [] ->
  snd (create_or_get_session now fresh auth_string w) =
    Ret (Granted
           (new_Session now fresh (v_username v) (default [] (v_groups v))
              (cfg_session_lifetime (auth_config (fst w)))
              (default false (v_root v)) true None)).
Proof.
  intros Hen Hconn Hco Hq Hcl Hval Htokens Hfresh Hlive.
  assert (Hopen : transactions_open w) by (intros _; now split).
  unfold create_or_get_session. rewrite Hen. cbn [negb].
  destruct (count_login_open now w Hopen) as (w2 & -> & Hp).
  destruct (pruned_keeps_first_login now fresh (v_username v) w w2
              Hp Htokens Hfresh Hlive) as (Htokens2 & Hfresh2 & Hlive2).
  destruct Hp as (Hc & Hd & Hf & _).
  rewrite <- Hc.
  apply authenticate_first_login; rewrite ?Hc, ?Hd, ?Hf; assumption.
Qed.

(** Without a connection, every credential that a validator accepts ends
    in [len(None)]. *)
Lemma login_without_connection (now : Z) (fresh auth_string : string)
    (w : World) (v : Validation) :
  enabled (auth_config (fst w)) = true ->
  database_connection (fst w) = false ->
  validate (auth_config (fst w)) auth_string = Ret (Some v) ->
  snd (create_or_get_session now fresh auth_string w) = Raise TypeError.
Proof.
  intros Hen Hconn Hval.
  assert (Hopen : transactions_open w) by (intros Hyes; congruence).
  unfold create_or_get_session. rewrite Hen. cbn [negb].
  destruct (count_login_open now w Hopen) as (w2 & -> & (Hc & Hd & _)).
  unfold authenticate. rewrite Hc, Hval.
  destruct w2 as [m2 st2]. unfold get_db_session_tokens.
  cbn [fst snd] in *. now rewrite Hd, Hconn.
Qed.

(** So does every accepted credential when the queries of a connected
    store raise and its transactions open and close. *)
Lemma login_with_failing_queries (now : Z) (fresh auth_string : string)
    (w : World) (v : Validation) :
  enabled (auth_config (fst w)) = true ->
  database_connection (fst w) = true ->
  st_faulty (snd w) OpConnect = false ->
  st_faulty (snd w) OpClose = false ->
  st_faulty (snd w) OpQuery = true ->
  validate (auth_config (fst w)) auth_string = Ret (Some v) ->
  snd (create_or_get_session now fresh auth_string w) = Raise TypeError.
Proof.
  intros Hen Hconn Hco Hcl Hq Hval.
  assert (Hopen : transactions_open w) by (intros _; now split).
  unfold create_or_get_session. rewrite Hen. cbn [negb].
  destruct (count_login_open now w Hopen) as (w2 & -> & (Hc & Hd & Hf & _)).
  unfold authenticate. rewrite Hc, Hval.
  destruct w2 as [m2 st2]. unfold get_db_session_tokens.
  cbn [fst snd] in *. now rewrite Hd, Hconn, Hf, Hco, Hq, Hcl.
Qed.

(** A token that only the store knows, with a record that is dead:
    [get_session] hands out the dead session. *)
Lemma get_session_dead_record (now : Z) (tok : string) (w : World)
    (db_record : SessionRecord) :
  enabled (auth_config (fst w)) = true ->
  database_connection (fst w) = true ->
  st_faulty (snd w) OpConnect = false ->
  st_faulty (snd w) OpQuery = false ->
  st_faulty (snd w) OpClose = false ->
  live_with now tok (sessions (fst w)) = [] ->
  query_by_token tok (snd w) = Some db_record ->
  cfg_session_lifetime (auth_config (fst w)) <
    now - rec_last_access db_record ->
  exists s,
    snd (get_session now tok w) = Ret (Some (Detached s)) /\
    token s = tok /\ last_access s = rec_last_access db_record /\
    is_alive now s = false.
Proof.
  destruct w as [m st]. cbn [fst snd].
  intros Hen Hconn Hco Hq Hcl Hlive Hrec Hold.
  assert (Hopen : transactions_open (m, st)) by (intros _; now split).
  eexists. unfold get_session. rewrite Hen. cbn [negb].
  apply find_live_None in Hlive. rewrite Hlive.
  unfold get_local_session_from_db.
  rewrite Hconn, Hco, Hq, Hcl, Hrec. cbn [negb].
  match goal with
  | |- context [is_alive now ?s] =>
      assert (Hdead : is_alive now s = false)
        by (unfold is_alive; apply Z.leb_gt; simpl; lia)
  end.
  rewrite Hdead. rewrite invalidate_open by exact Hopen. cbn [fst snd].
  repeat split. exact Hdead.
Qed.

(** C6: the validators are consulted in the fixed order root, dictionary,
    PAM, LDAP, and the first that does not reject gives the result.  A
    credential whose hash is the configured root hash is validated as
    root, with no groups, whatever the configuration of the other methods
    says and whether they are enabled or not; and a first login with it
    yields a session that is root. *)
Theorem validators_in_fixed_order_root_first (cfg : AuthConfig)
    (auth_string : string) :
  validate cfg auth_string =
    first_accepting validators_in_order cfg auth_string /\
  (method_root cfg = Some (sha256_hexdigest auth_string) ->
   validate cfg auth_string =
     Ret (Some {| v_username := get_user_name auth_string;
                  v_groups := Some [];
                  v_root := Some true |}) /\
   forall now fresh m st,
     auth_config m = cfg ->
     enabled cfg = true ->
     database_connection m = true ->
     st_faulty st OpConnect = false ->
     st_faulty st OpQuery = false ->
     st_faulty st OpClose = false ->
     query_tokens_of (get_user_name auth_string) st = [] ->
     query_by_token fresh st = None ->
     live_with now fresh (sessions m) = [] ->
     exists s,
       snd (create_or_get_session now fresh auth_string (m, st)) =
         Ret (Granted s) /\
       is_root s = true /\ user s = get_user_name auth_string /\
       groups s = [] /\ token s = fresh).
Proof.
  split; [apply validate_in_order|].
  intros Hroot. pose proof (validate_root cfg auth_string Hroot) as Hval.
  split; [exact Hval|].
  intros now fresh m st Hcfg Hen Hconn Hco Hq Hcl Htokens Hfresh Hlive.
  subst cfg. eexists. split.
  - apply (create_or_get_session_first_login now fresh auth_string (m, st)
             _ Hen Hconn Hco Hq Hcl Hval Htokens Hfresh Hlive).
  - now repeat split.
Qed.


(** C3, as the code has it: [get_session] does not revalidate.  When the
    in-memory list has a live session for the token, [get_session] hands
    out that very session and changes nothing, in memory or in the store:
    [last_access] keeps its value, where a revalidation at that moment
    would set it to the current time.  The lifetime therefore runs from
    the last revalidation, not from the last [get_session]. *)
Theorem get_session_keeps_last_access (now : Z) (tok : string) (w : World)
    (i : nat) (s : Session) :
  enabled (auth_config (fst w)) = true ->
  find_live now tok (sessions (fst w)) = Some (i, s) ->
  get_session now tok w = (w, Ret (Some (Cached i s))) /\
  sessions (fst w) !! i = Some s /\
  is_alive now s = true /\ token s = tok /\
  last_access (fst (fst (revalidate now s (snd w)))) = now /\
  (forall later,
     last_access s + session_lifetime s < later ->
     is_alive later s = false).
Proof.
  intros Hen Hfind.
  destruct (find_live_Some _ _ _ _ _ Hfind) as (Hi & Halive & Htok).
  split.
  { destruct w as [m st]. unfold get_session. cbn [fst snd] in *.
    now rewrite Hen, Hfind. }
  repeat split; try assumption.
  - now rewrite revalidate_session, Halive.
  - intros later Hlater. unfold is_alive. apply Z.leb_gt. lia.
Qed.

End Logins.

(** * The concrete installation *)

Module ScenarioFacts.
Import Scenario.
#[local] Existing Instance backends.

(** C1: with no connection to the durable store, a login with a valid
    credential does not return a session: [get_db_session_tokens] answers
    [None] and [len(tokens)] raises [TypeError].  The same happens when the
    store is connected and its queries raise; and when the very call that
    opens the transaction raises, the [finally] clause of
    [get_db_session_tokens] raises [UnboundLocalError].  The exception
    reaches the caller each time. *)
Theorem login_without_store_raises :
  try_auth_dictionary dictionary_cfg "alice:secret" =
    Ret (Some {| v_username := "alice"; v_groups := Some ["dev"];
                 v_root := None |}) /\
  snd (create_or_get_session 0 "A" "alice:secret"
         (new_manager dictionary_cfg, empty_store)) = Raise TypeError /\
  snd (create_or_get_session 0 "A" "alice:secret"
         (connected dictionary_cfg, failing_store)) = Raise TypeError /\
  snd (create_or_get_session 0 "A" "alice:secret"
         (connected dictionary_cfg, broken_store)) = Raise UnboundLocalError.
Proof. repeat split; vm_compute; reflexivity. Qed.

(** C2: a token found only in the durable store, with a record that is
    dead: [get_session] invalidates the token in both tiers and then
    returns the dead session object, not [None]. *)
Theorem get_session_returns_dead_record :
  get_session 100 "A" (connected dictionary_cfg, stale_store) =
    ((connected dictionary_cfg, empty_store),
     Ret (Some (Detached (alice_session 0)))) /\
  is_alive 100 (alice_session 0) = false.
Proof. split; vm_compute; reflexivity. Qed.

(** The dead session reaches the caller of [create_or_get_session] as
    well. *)
Lemma login_returns_dead_record :
  snd (create_or_get_session 100 "B" "alice:secret"
         (connected dictionary_cfg, stale_store)) =
    Ret (Granted (alice_session 0)).
Proof. vm_compute. reflexivity. Qed.

(** C5: a secret with a colon.  [get_user_name] and the dictionary
    validator take the user name before the first colon; the PAM and the
    LDAP validator unpack [split(':')] into two names and raise
    [ValueError]. *)
Theorem colon_in_secret_raises :
  get_user_name "bob:pa:ss" = "bob" /\
  try_auth_pam pam_ldap_cfg "bob:pa:ss" = Raise ValueError /\
  try_auth_ldap ldap_only_cfg "bob:pa:ss" = Raise ValueError /\
  try_auth_pam pam_ldap_cfg "bob:pass" =
    Ret (Some {| v_username := "bob"; v_groups := None; v_root := None |}).
Proof. repeat split; vm_compute; reflexivity. Qed.

(** C7, on Alice's session of time 0 at time 100. *)
Lemma revalidate_dead_witness :
  is_alive 100 (alice_session 0) = false /\
  revalidate 100 (alice_session 0) stale_store =
    (alice_session 0, stale_store, Ret tt).
Proof.
  split; [reflexivity|].
  apply (proj1 (revalidate_dead_is_noop 100 (alice_session 0) stale_store
                  eq_refl)).
Defined.

(** On Alice's token after her login, with a store that works. *)
Lemma invalidate_witness :
  transactions_open alice_at_0 /\
  invalidate "A" alice_at_0 =
    ((with_logins 1 (connected dictionary_cfg), empty_store), Ret true).
Proof.
  assert (Hopen : transactions_open alice_at_0).
  { intros _. split; reflexivity. }
  split; [exact Hopen|].
  exact (proj1 (invalidate_total_idempotent "A" alice_at_0 Hopen)).
Defined.

(** A deletion that fails: the answer is [False], the session has left the
    memory and the store keeps what it held. *)
Lemma invalidate_failing_store :
  invalidate "A" (fst alice_at_0, failing_store) =
    ((with_logins 1 (connected dictionary_cfg), failing_store), Ret false).
Proof. vm_compute. reflexivity. Qed.

(** C9, after Alice's login. *)
Lemma one_live_session_witness :
  reachable dictionary_cfg 0 alice_at_0 /\
  forall i j s1 s2,
    sessions (fst alice_at_0) !! i = Some s1 ->
    sessions (fst alice_at_0) !! j = Some s2 ->
    token s1 = token s2 ->
    is_alive 0 s1 = true -> is_alive 0 s2 = true ->
    i = j.
Proof.
  assert (Hreach : reachable dictionary_cfg 0 alice_at_0).
  { apply (reach_call dictionary_cfg 0 0 (CallLogin "A" "alice:secret")
             (connected dictionary_cfg, empty_store)); [|lia].
    apply reach_connection, reach_new. }
  split; [exact Hreach|].
  exact (one_live_session_per_token dictionary_cfg 0 alice_at_0 Hreach).
Defined.

(** C3: Alice logged in at time 0; at time 30 [get_session] returns her
    session with [last_access] still 0. *)
Lemma get_session_does_not_revalidate :
  ~ (exists r, snd (get_session 30 "A" alice_at_0) = Ret (Some r) /\
               last_access (ref_session r) = 30).
Proof.
  intros [r [Hget Hla]]. vm_compute in Hget.
  injection Hget as <-. vm_compute in Hla. discriminate.
Qed.

(** C3, as the code has it, on the same login. *)
Lemma get_session_at_30_witness :
  enabled (auth_config (fst alice_at_0)) = true /\
  find_live 30 "A" (sessions (fst alice_at_0)) = Some (0%nat, alice_session 0) /\
  get_session 30 "A" alice_at_0 =
    (alice_at_0, Ret (Some (Cached 0 (alice_session 0)))).
Proof.
  assert (Hfind : find_live 30 "A" (sessions (fst alice_at_0)) =
                  Some (0%nat, alice_session 0)) by reflexivity.
  split; [reflexivity|]. split; [exact Hfind|].
  exact (proj1 (get_session_keeps_last_access 30 "A" alice_at_0 0
                  (alice_session 0) eq_refl Hfind)).
Defined.

(** It is a new login that moves [last_access]; and without one, the
    session is no longer served at time 65, a minute and five seconds
    after the login and 35 seconds after the request of time 30. *)
Lemma login_revalidates :
  snd (create_or_get_session 30 "B" "alice:secret" alice_at_0) =
    Ret (Granted (alice_session 30)) /\
  fst (get_session 30 "A" alice_at_0) = alice_at_0 /\
  find_live 65 "A" (sessions (fst (fst (get_session 30 "A" alice_at_0)))) = None.
Proof. repeat split; vm_compute; reflexivity. Qed.

(** C4: a rejected credential advances the counter. *)
Lemma rejected_login_is_counted :
  ~ (snd (create_or_get_session 0 "T" "mallory:wrong"
            (connected dictionary_cfg, empty_store)) = Ret Rejected ->
     logins_since_prune
       (fst (fst (create_or_get_session 0 "T" "mallory:wrong"
                    (connected dictionary_cfg, empty_store)))) =
     logins_since_prune (connected dictionary_cfg)).
Proof.
  intros Hclaim.
  assert (Hrej : snd (create_or_get_session 0 "T" "mallory:wrong"
                        (connected dictionary_cfg, empty_store)) = Ret Rejected)
    by (vm_compute; reflexivity).
  apply Hclaim in Hrej. vm_compute in Hrej. discriminate.
Qed.

(** C4, as the code has it, on the third call since the last pruning. *)
Lemma third_login_prunes_witness :
  enabled (auth_config (fst two_logins_counted)) = true /\
  transactions_open two_logins_counted /\
  logins_since_prune
    (fst (fst (create_or_get_session 100 "B" "carol:pw" two_logins_counted)))
    = 0 /\
  Forall (fun s => 0 <= session_lifetime s -> is_alive 100 s = true)
    (sessions
       (fst (fst (create_or_get_session 100 "B" "carol:pw"
                    two_logins_counted)))).
Proof.
  assert (Hopen : transactions_open two_logins_counted).
  { intros _. split; reflexivity. }
  split; [reflexivity|]. split; [exact Hopen|].
  exact (login_counter_counts_every_call 100 "B" "carol:pw"
           two_logins_counted eq_refl Hopen).
Defined.

Lemma third_login_prunes_alice :
  create_or_get_session 100 "B" "carol:pw" two_logins_counted =
    (({| auth_config := dictionary_cfg;
         database_connection := true;
         logins_since_prune := 0;
         sessions := [carol_session 100] |},
      {| st_sessions := [ {| rec_token := "B"; rec_user_name := "carol";
                             rec_groups := ""; rec_last_access := 100 |} ];
         st_permissions := [];
         st_faulty := fun _ => false |}),
     Ret (Granted (carol_session 100))).
Proof. vm_compute. reflexivity. Qed.

(** C6, on the root credential. *)
Lemma root_login_witness :
  method_root dictionary_cfg = Some (sha256_hexdigest "root:adminpw") /\
  validate dictionary_cfg "root:adminpw" =
    Ret (Some {| v_username := "root"; v_groups := Some [];
                 v_root := Some true |}).
Proof.
  split; [reflexivity|].
  exact (proj1 (proj2 (validators_in_fixed_order_root_first dictionary_cfg
                         "root:adminpw") eq_refl)).
Defined.

Lemma root_login_session :
  snd (create_or_get_session 0 "R" "root:adminpw"
         (connected pam_ldap_cfg, empty_store)) =
    Ret (Granted {| token := "R"; user := "root"; groups := [];
                    session_lifetime := 60; is_root := true;
                    database := true; last_access := 0 |}).
Proof. vm_compute. reflexivity. Qed.


Lemma dictionary_login_session :
  snd (create_or_get_session 0 "A" "alice:secret"
         (connected dictionary_cfg, empty_store)) =
    Ret (Granted (alice_session 0)) /\
  snd (create_or_get_session 0 "B" "carol:pw"
         (connected dictionary_cfg, empty_store)) =
    Ret (Granted (carol_session 0)) /\
  try_auth_dictionary dictionary_cfg "alice:Secret" = Ret None.
Proof. repeat split; vm_compute; reflexivity. Qed.

End ScenarioFacts.

(** * Further properties of the module *)

(** ** Splitting and joining *)

Lemma split_cons (sep : ascii) (s : string) :
  exists piece pieces, split sep s = piece :: pieces.
Proof.
  pose proof (split_length sep s) as Hlen.
  destruct (split sep s) as [|piece pieces]; [discriminate|]. eauto.
Qed.

Lemma join_cons_char (sep : string) (c : ascii) (piece : string)
    (pieces : list string) :
  join sep (String c piece :: pieces) = String c (join sep (piece :: pieces)).
Proof. destruct pieces; reflexivity. Qed.

(** X1: joining the pieces of a split with the separator gives the string
    back: [sep.join(s.split(sep)) == s]. *)
Theorem join_split (sep : ascii) (s : string) :
  join (String sep "") (split sep s) = s.
Proof.
  induction s as [|c rest IH]; [reflexivity|]. simpl.
  destruct (split_cons sep rest) as (piece & pieces & Hsplit).
  rewrite Hsplit in *.
  destruct (Ascii.eqb c sep) eqn:Hc.
  - apply Ascii.eqb_eq in Hc. subst c.
    change (join (String sep "") ("" :: piece :: pieces))
      with (String sep (join (String sep "") (piece :: pieces))).
    now rewrite IH.
  - rewrite join_cons_char. now rewrite IH.
Qed.

Lemma split_no_sep (sep : ascii) (s : string) :
  count sep s = 0%nat -> split sep s = [s].
Proof.
  induction s as [|c rest IH]; simpl; [reflexivity|].
  destruct (Ascii.eqb c sep); [discriminate|].
  intros Hcount. now rewrite (IH Hcount).
Qed.

Lemma split_app_sep (sep : ascii) (s rest : string) :
  count sep s = 0%nat ->
  split sep (s ++ String sep rest) = s :: split sep rest.
Proof.
  induction s as [|c s IH]; simpl.
  - intros _. now rewrite Ascii.eqb_refl.
  - destruct (Ascii.eqb c sep); [discriminate|].
    intros Hcount. now rewrite (IH Hcount).
Qed.

Lemma split_head_no_sep (sep : ascii) (s piece : string)
    (pieces : list string) :
  split sep s = piece :: pieces -> count sep piece = 0%nat.
Proof.
  revert piece pieces. induction s as [|c rest IH]; simpl; intros piece pieces.
  - intros Heq. injection Heq as <- _. reflexivity.
  - destruct (Ascii.eqb c sep) eqn:Hc.
    + intros Heq. injection Heq as <- _. reflexivity.
    + destruct (split sep rest) as [|p ps]; intros Heq; injection Heq as <- _;
        simpl; rewrite Hc; [reflexivity | now apply (IH p ps)].
Qed.

Lemma split_head_prefix (sep : ascii) (s piece : string)
    (pieces : list string) :
  split sep s = piece :: pieces -> exists rest, s = piece ++ rest.
Proof.
  revert piece pieces. induction s as [|c rest IH]; simpl; intros piece pieces.
  - intros Heq. injection Heq as <- _. now exists "".
  - destruct (Ascii.eqb c sep).
    + intros Heq. injection Heq as <- _. now exists (String c rest).
    + destruct (split sep rest) as [|p ps] eqn:Hsplit;
        intros Heq; injection Heq as <- _.
      * destruct (split_cons sep rest) as (p & ps & Hp). congruence.
      * destruct (IH p ps eq_refl) as [tail ->]. now exists tail.
Qed.

(** Splitting a joined list of pieces that hold no separator: the pieces
    come back, an empty list as the one empty piece. *)
Lemma split_join (sep : ascii) (l : list string) :
  Forall (fun x => count sep x = 0%nat) l ->
  split sep (join (String sep "") l) =
    match l with [] => [""] | _ => l end.
Proof.
  induction l as [|x l IH]; [reflexivity|].
  intros Hall. apply Forall_cons_1 in Hall as [Hx Hl].
  destruct l as [|y l].
  - simpl. now apply split_no_sep.
  - change (join (String sep "") (x :: y :: l))
      with (x ++ String sep (join (String sep "") (y :: l))).
    rewrite split_app_sep by exact Hx. now rewrite (IH Hl).
Qed.

(** X2: [get_user_name] takes what stands before the first colon: a name
    without a colon is returned whole, and from a name followed by a colon
    and anything else, colons included, the name is returned. *)
Theorem get_user_name_before_first_colon (username : string) :
  count ":" username = 0%nat ->
  get_user_name username = username /\
  forall rest, get_user_name (username ++ ":" ++ rest) = username.
Proof.
  intros Hname. unfold get_user_name. split.
  - now rewrite split_no_sep.
  - intros rest.
    change (username ++ ":" ++ rest) with (username ++ String ":" rest).
    now rewrite split_app_sep.
Qed.

(** X3: the user name [get_user_name] returns never holds a colon, and the
    credential starts with it. *)
Theorem get_user_name_is_colon_free_prefix (auth_string : string) :
  count ":" (get_user_name auth_string) = 0%nat /\
  exists rest, auth_string = get_user_name auth_string ++ rest.
Proof.
  unfold get_user_name.
  destruct (split_cons ":" auth_string) as (piece & pieces & Hsplit).
  rewrite Hsplit. split.
  - now apply (split_head_no_sep ":" auth_string piece pieces).
  - now apply (split_head_prefix ":" auth_string piece pieces).
Qed.

(** ** The PAM and LDAP validators *)

Section BindingProperties.
Context `{Backends}.

Lemma supported_methods :
  str_in "pam" UNSUPPORTED_METHODS = negb cc_pam_importable /\
  str_in "ldap" UNSUPPORTED_METHODS = negb cc_ldap_importable.
Proof.
  unfold UNSUPPORTED_METHODS.
  destruct cc_ldap_importable, cc_pam_importable; split; reflexivity.
Qed.

Lemma unpack2_one_colon (username password : string) :
  count ":" username = 0%nat -> count ":" password = 0%nat ->
  unpack2 (split ":" (username ++ ":" ++ password)) =
    Ret (username, password).
Proof.
  intros Hu Hp.
  change (username ++ ":" ++ password) with (username ++ String ":" password).
  now rewrite split_app_sep, (split_no_sep ":" password).
Qed.

Lemma unpack2_not_one_colon (auth_string : string) :
  count ":" auth_string <> 1%nat ->
  unpack2 (split ":" auth_string) = Raise ValueError.
Proof.
  intros Hcount. apply unpack2_length. rewrite split_length. lia.
Qed.

(** X4: the PAM validator, enabled and with its binding at hand.  A
    credential that does not hold exactly one colon, none at all included,
    raises [ValueError]; a credential [username:password] is accepted if
    and only if the binding accepts the pair, and then the validation
    object names the user and has neither groups nor the root flag. *)
Theorem try_auth_pam_enabled (cfg : AuthConfig) (settings : PamConfig)
    (auth_string : string) :
  method_pam cfg = Some {| pam_enabled := true; pam_settings := settings |} ->
  cc_pam_importable = true ->
  (count ":" auth_string <> 1%nat ->
   try_auth_pam cfg auth_string = Raise ValueError) /\
  (forall username password,
     auth_string = username ++ ":" ++ password ->
     count ":" username = 0%nat -> count ":" password = 0%nat ->
     try_auth_pam cfg auth_string =
       Ret (if cc_pam_auth_user settings username password
            then Some {| v_username := username; v_groups := None;
                         v_root := None |}
            else None)).
Proof.
  intros Hpam Himport.
  assert (Hon : is_method_enabled cfg "pam" = true).
  { unfold is_method_enabled, method_flag. simpl.
    rewrite (proj1 supported_methods), Himport, Hpam. reflexivity. }
  unfold try_auth_pam. rewrite Hon. split.
  - intros Hcount. now rewrite unpack2_not_one_colon.
  - intros username password -> Hu Hp.
    rewrite unpack2_one_colon by assumption. rewrite Hpam. simpl.
    now destruct (cc_pam_auth_user settings username password).
Qed.

Lemma ldap_first_find (authorities : list LdapAuthority)
    (username password : string) :
  ldap_first authorities username password =
    match List.find
            (fun ldap_conf => cc_ldap_auth_user ldap_conf username password)
            authorities with
    | Some ldap_conf =>
        Some {| v_username := username;
                v_groups := Some (cc_ldap_get_groups ldap_conf
                                    username password);
                v_root := None |}
    | None => None
    end.
Proof.
  induction authorities as [|ldap_conf rest IH]; simpl; [reflexivity|].
  now destruct (cc_ldap_auth_user ldap_conf username password).
Qed.

(** X5: the LDAP validator, enabled and with its binding at hand.  A
    credential that does not hold exactly one colon raises [ValueError];
    for a credential [username:password] the authorities are tried in the
    order of the configuration, and the first one that accepts the pair
    gives the groups; when none accepts, the credential is rejected. *)
Theorem try_auth_ldap_enabled (cfg : AuthConfig)
    (authorities : list LdapAuthority) (auth_string : string) :
  method_ldap cfg = Some {| ldap_enabled := true;
                            ldap_authorities := Some authorities |} ->
  cc_ldap_importable = true ->
  (count ":" auth_string <> 1%nat ->
   try_auth_ldap cfg auth_string = Raise ValueError) /\
  (forall username password,
     auth_string = username ++ ":" ++ password ->
     count ":" username = 0%nat -> count ":" password = 0%nat ->
     try_auth_ldap cfg auth_string =
       Ret (match List.find
                    (fun ldap_conf =>
                       cc_ldap_auth_user ldap_conf username password)
                    authorities with
            | Some ldap_conf =>
                Some {| v_username := username;
                        v_groups := Some (cc_ldap_get_groups ldap_conf
                                            username password);
                        v_root := None |}
            | None => None
            end)).
Proof.
  intros Hldap Himport.
  assert (Hon : is_method_enabled cfg "ldap" = true).
  { unfold is_method_enabled, method_flag. simpl.
    rewrite (proj2 supported_methods), Himport, Hldap. reflexivity. }
  unfold try_auth_ldap. rewrite Hon. split.
  - intros Hcount. now rewrite unpack2_not_one_colon.
  - intros username password -> Hu Hp.
    rewrite unpack2_one_colon by assumption. rewrite Hldap. simpl.
    now rewrite ldap_first_find.
Qed.

(** X6: a method whose binding could not be imported rejects every
    credential and raises nothing, whatever the configuration says about
    it. *)
Theorem missing_binding_rejects (cfg : AuthConfig) (auth_string : string) :
  (cc_pam_importable = false -> try_auth_pam cfg auth_string = Ret None) /\
  (cc_ldap_importable = false -> try_auth_ldap cfg auth_string = Ret None).
Proof.
  split; intros Hmissing.
  - unfold try_auth_pam, is_method_enabled.
    now rewrite (proj1 supported_methods), Hmissing.
  - unfold try_auth_ldap, is_method_enabled.
    now rewrite (proj2 supported_methods), Hmissing.
Qed.

(** With no method enabled, the validation step is the root check alone. *)
Lemma validate_without_methods (cfg : AuthConfig) (auth_string : string) :
  (forall method, In method method_names ->
     is_method_enabled cfg method = false) ->
  validate cfg auth_string = Ret (try_auth_root cfg auth_string).
Proof.
  intros Hoff. unfold validate, handle_validation.
  destruct (try_auth_root cfg auth_string) as [v|]; [reflexivity|].
  unfold try_auth_dictionary, try_auth_pam, try_auth_ldap.
  rewrite (Hoff "dictionary") by now left.
  rewrite (Hoff "pam") by now right; left.
  rewrite (Hoff "ldap") by now right; right; left.
  now destruct (method_dictionary cfg).
Qed.

End BindingProperties.

(** ** The constructor *)

Section InitProperties.
Context `{Backends}.

Ltac open_config cfg :=
  destruct cfg as [en lifetime threshold root
                     [[den dauths dgroups]|] [[pen psettings]|]
                     [[len lauths]|]].

Ltac settle_cases :=
  unfold settle_auth_config, set_enabled, set_method_root, disable_ldap,
    disable_pam, key_enabled, is_method_enabled, method_flag,
    UNSUPPORTED_METHODS in *;
  cbn in *;
  repeat match goal with
         | b : bool |- _ => destruct b; cbn in *
         end;
  destruct cc_ldap_importable, cc_pam_importable; cbn in *.

Lemma settle_method_root (force_auth : bool) (root_sha : string)
    (file_cfg : AuthConfig) :
  method_root (settle_auth_config force_auth root_sha file_cfg) =
    Some root_sha.
Proof. open_config file_cfg; settle_cases; reflexivity. Qed.

Lemma settle_keeps (force_auth : bool) (root_sha : string)
    (file_cfg : AuthConfig) :
  let cfg := settle_auth_config force_auth root_sha file_cfg in
  cfg_session_lifetime cfg = cfg_session_lifetime file_cfg /\
  logins_until_cleanup cfg = logins_until_cleanup file_cfg /\
  dict_auths <$> method_dictionary cfg =
    dict_auths <$> method_dictionary file_cfg /\
  dict_groups <$> method_dictionary cfg =
    dict_groups <$> method_dictionary file_cfg /\
  pam_settings <$> method_pam cfg = pam_settings <$> method_pam file_cfg /\
  ldap_authorities <$> method_ldap cfg =
    ldap_authorities <$> method_ldap file_cfg.
Proof.
  open_config file_cfg; settle_cases; repeat split; reflexivity.
Qed.

Lemma settle_forced (root_sha : string) (file_cfg : AuthConfig) :
  enabled (settle_auth_config true root_sha file_cfg) = true.
Proof. open_config file_cfg; settle_cases; reflexivity. Qed.

Lemma settle_enabled_has_method (root_sha : string) (file_cfg : AuthConfig) :
  enabled (settle_auth_config false root_sha file_cfg) = true ->
  exists method,
    In method method_names /\
    is_method_enabled (settle_auth_config false root_sha file_cfg) method
      = true.
Proof.
  open_config file_cfg; settle_cases; intros Hen;
    try discriminate;
    first [ exists "dictionary"; split; [now left | reflexivity]
          | exists "pam"; split; [now right; left | reflexivity]
          | exists "ldap"; split; [now right; right; left | reflexivity] ].
Qed.

Lemma settle_without_method (root_sha : string) (file_cfg : AuthConfig) :
  (forall method, In method method_names ->
     is_method_enabled file_cfg method = false) ->
  enabled (settle_auth_config false root_sha file_cfg) = false.
Proof.
  intros Hoff.
  pose proof (Hoff "dictionary" ltac:(now left)) as Hd.
  pose proof (Hoff "pam" ltac:(now right; left)) as Hp.
  pose proof (Hoff "ldap" ltac:(now right; right; left)) as Hl.
  clear Hoff.
  open_config file_cfg; settle_cases;
    first [reflexivity | discriminate].
Qed.

Lemma settle_flag_supported (force_auth : bool) (root_sha : string)
    (file_cfg : AuthConfig) (method : string) :
  enabled (settle_auth_config force_auth root_sha file_cfg) = true ->
  method_flag (settle_auth_config force_auth root_sha file_cfg) method
    = Some true ->
  is_method_enabled (settle_auth_config force_auth root_sha file_cfg) method
    = true /\
  method_flag file_cfg method = Some true.
Proof.
  intros Hen Hflag. unfold is_method_enabled. rewrite Hflag.
  unfold method_flag in Hflag |- *.
  destruct (String.eqb method "dictionary") eqn:Hd.
  { apply String.eqb_eq in Hd. subst method.
    open_config file_cfg; settle_cases;
      first [discriminate | split; reflexivity]. }
  destruct (String.eqb method "pam") eqn:Hp.
  { apply String.eqb_eq in Hp. subst method.
    open_config file_cfg; settle_cases;
      first [discriminate | split; reflexivity]. }
  destruct (String.eqb method "ldap") eqn:Hl; [|discriminate].
  apply String.eqb_eq in Hl. subst method.
  open_config file_cfg; settle_cases;
    first [discriminate | split; reflexivity].
Qed.

(** X7: what the constructor ends with.  It raises [ValueError] exactly on
    an empty configuration, and [KeyError] exactly on one that has keys
    but not [authentication]; otherwise it builds a manager with no
    session, no login counted and no connection, which keeps the run
    count, the lifetime, the cleanup threshold, the dictionary entries and
    groups, the PAM settings and the LDAP authorities of the file. *)
Theorem init_outcomes (scfg : ServerConfig) (root_sha : string)
    (force_auth : bool) :
  match init scfg root_sha force_auth with
  | InitValueError =>
      scfg_max_run_count scfg = None /\ scfg_authentication scfg = None /\
      scfg_other_keys scfg = []
  | InitKeyError =>
      scfg_authentication scfg = None /\
      (scfg_max_run_count scfg <> None \/ scfg_other_keys scfg <> [])
  | Initialised m max_run_count =>
      exists file_cfg,
        scfg_authentication scfg = Some file_cfg /\
        max_run_count = scfg_max_run_count scfg /\
        sessions m = [] /\ logins_since_prune m = 0 /\
        database_connection m = false /\
        cfg_session_lifetime (auth_config m) = cfg_session_lifetime file_cfg /\
        logins_until_cleanup (auth_config m) = logins_until_cleanup file_cfg /\
        dict_auths <$> method_dictionary (auth_config m) =
          dict_auths <$> method_dictionary file_cfg /\
        dict_groups <$> method_dictionary (auth_config m) =
          dict_groups <$> method_dictionary file_cfg /\
        pam_settings <$> method_pam (auth_config m) =
          pam_settings <$> method_pam file_cfg /\
        ldap_authorities <$> method_ldap (auth_config m) =
          ldap_authorities <$> method_ldap file_cfg
  end.
Proof.
  unfold init, scfg_nonempty.
  destruct scfg as [[run|] [file_cfg|] [|key keys]]; cbn;
    try (exists file_cfg; repeat split; apply settle_keeps);
    try (split; [reflexivity|]; first [left; discriminate | right; discriminate]);
    try (repeat split; reflexivity).
Qed.

(** X8: the root hash given to the constructor always is the one in force,
    whatever the file holds under [method_root]: the credential whose hash
    it is is validated as root, with the user name in front of its first
    colon and no groups, by every manager the constructor builds. *)
Theorem init_installs_root (scfg : ServerConfig) (force_auth : bool)
    (auth_string : string) (m : SessionManager) (max_run_count : option Z) :
  init scfg (sha256_hexdigest auth_string) force_auth =
    Initialised m max_run_count ->
  method_root (auth_config m) = Some (sha256_hexdigest auth_string) /\
  validate (auth_config m) auth_string =
    Ret (Some {| v_username := get_user_name auth_string;
                 v_groups := Some [];
                 v_root := Some true |}).
Proof.
  unfold init. destruct (scfg_nonempty scfg); [|discriminate].
  destruct (scfg_authentication scfg) as [file_cfg|]; [|discriminate].
  intros Heq. injection Heq as <- _. simpl.
  pose proof (settle_method_root force_auth (sha256_hexdigest auth_string)
                file_cfg) as Hroot.
  split; [exact Hroot | now apply validate_root].
Qed.

(** X9: when the constructor was not told to force authentication and the
    manager it builds has authentication enabled, at least one of the
    methods dictionary, PAM and LDAP is enabled and supported on the
    host. *)
Theorem init_enabled_has_method (scfg : ServerConfig) (root_sha : string)
    (m : SessionManager) (max_run_count : option Z) :
  init scfg root_sha false = Initialised m max_run_count ->
  is_enabled m = true ->
  exists method,
    In method method_names /\ is_method_enabled (auth_config m) method = true.
Proof.
  unfold init, is_enabled. destruct (scfg_nonempty scfg); [|discriminate].
  destruct (scfg_authentication scfg) as [file_cfg|]; [|discriminate].
  intros Heq. injection Heq as <- _. simpl.
  apply settle_enabled_has_method.
Qed.

(** X10: forced authentication.  The manager is enabled whatever the file
    says; and when no method is enabled and supported, it grants access to
    the root credential alone: every other credential is rejected, and no
    validator raises. *)
Theorem init_forced_root_only (scfg : ServerConfig) (root_sha : string)
    (m : SessionManager) (max_run_count : option Z) :
  init scfg root_sha true = Initialised m max_run_count ->
  is_enabled m = true /\
  ((forall method, In method method_names ->
      is_method_enabled (auth_config m) method = false) ->
   forall auth_string,
     validate (auth_config m) auth_string =
       Ret (if String.eqb (sha256_hexdigest auth_string) root_sha
            then Some {| v_username := get_user_name auth_string;
                         v_groups := Some [];
                         v_root := Some true |}
            else None)).
Proof.
  unfold init, is_enabled. destruct (scfg_nonempty scfg); [|discriminate].
  destruct (scfg_authentication scfg) as [file_cfg|]; [|discriminate].
  intros Heq. injection Heq as <- _. simpl.
  split; [apply settle_forced|].
  intros Hoff auth_string.
  rewrite validate_without_methods by exact Hoff.
  unfold try_auth_root. now rewrite settle_method_root.
Qed.

(** X11: without forcing, a file whose [authentication] block has the key
    [enabled] set to true and enables no method that is supported on the
    host ends with authentication switched off by the constructor: no
    credential, the root one included, gets a session;
    [create_or_get_session] answers [None] and [get_session] answers
    [None], and neither counts the call or touches memory or store. *)
Theorem init_without_method_is_off (scfg : ServerConfig) (root_sha : string)
    (file_cfg : AuthConfig) (m : SessionManager)
    (max_run_count : option Z) :
  init scfg root_sha false = Initialised m max_run_count ->
  scfg_authentication scfg = Some file_cfg ->
  enabled file_cfg = true ->
  (forall method, In method method_names ->
     is_method_enabled file_cfg method = false) ->
  is_enabled m = false /\
  forall now fresh auth_string tok st,
    create_or_get_session now fresh auth_string (m, st) =
      ((m, st), Ret NoAuth) /\
    get_session now tok (m, st) = ((m, st), Ret None).
Proof.
  unfold init, is_enabled. destruct (scfg_nonempty scfg); [|discriminate].
  intros Heq Hfile _ Hoff. rewrite Hfile in Heq. injection Heq as <- _.
  pose proof (settle_without_method root_sha file_cfg Hoff) as Hdis.
  simpl. split; [exact Hdis|].
  intros now fresh auth_string tok st.
  unfold create_or_get_session, get_session. simpl.
  now rewrite Hdis.
Qed.

(** X12: in an enabled manager built by the constructor, a method whose
    flag is on is supported on the host, so that the flag alone tells
    whether the method is consulted; and the constructor turns no flag on
    that the file had off. *)
Theorem init_flags_are_supported (scfg : ServerConfig) (root_sha : string)
    (force_auth : bool) (file_cfg : AuthConfig) (m : SessionManager)
    (max_run_count : option Z) (method : string) :
  init scfg root_sha force_auth = Initialised m max_run_count ->
  scfg_authentication scfg = Some file_cfg ->
  is_enabled m = true ->
  method_flag (auth_config m) method = Some true ->
  is_method_enabled (auth_config m) method = true /\
  method_flag file_cfg method = Some true.
Proof.
  unfold init, is_enabled. destruct (scfg_nonempty scfg); [|discriminate].
  intros Heq Hfile. rewrite Hfile in Heq. injection Heq as <- _. simpl.
  apply settle_flag_supported.
Qed.

End InitProperties.

(** ** Revalidating a live session *)

Lemma touch_record_identity (tok : string) (la : Z)
    (rs : list SessionRecord) :
  List.map rec_identity (touch_record tok la rs) = List.map rec_identity rs.
Proof.
  induction rs as [|r rs IH]; simpl; [reflexivity|].
  destruct (String.eqb (rec_token r) tok); simpl; [reflexivity|].
  now rewrite IH.
Qed.

Lemma touch_record_other (tok tok' : string) (la : Z)
    (rs : list SessionRecord) :
  tok' <> tok ->
  List.find (fun r => String.eqb (rec_token r) tok') (touch_record tok la rs) =
  List.find (fun r => String.eqb (rec_token r) tok') rs.
Proof.
  intros Hne. induction rs as [|r rs IH]; simpl; [reflexivity|].
  destruct (String.eqb (rec_token r) tok) eqn:Htok; simpl.
  - apply String.eqb_eq in Htok. rewrite Htok.
    apply String.eqb_neq in Hne. rewrite String.eqb_sym in Hne.
    now rewrite Hne.
  - now rewrite IH.
Qed.

Lemma touch_record_found (tok : string) (la : Z) (rs : list SessionRecord)
    (r : SessionRecord) :
  List.find (fun r => String.eqb (rec_token r) tok) rs = Some r ->
  List.find (fun r => String.eqb (rec_token r) tok) (touch_record tok la rs) =
    Some {| rec_token := rec_token r; rec_user_name := rec_user_name r;
            rec_groups := rec_groups r; rec_last_access := la |}.
Proof.
  induction rs as [|x rs IH]; simpl; [discriminate|].
  destruct (String.eqb (rec_token x) tok) eqn:Htok; simpl.
  - intros Heq. injection Heq as <-. now rewrite Htok.
  - rewrite Htok. exact IH.
Qed.

(** Revalidating a live session returns unless the transaction cannot be
    opened or released. *)
Lemma revalidate_returns (now : Z) (s : Session) (st : Store) :
  (database s = true ->
   st_faulty st OpConnect = false /\ st_faulty st OpClose = false) ->
  snd (revalidate now s st) = Ret tt.
Proof.
  intros Hopen. unfold revalidate.
  destruct (is_alive now s); simpl; [|reflexivity].
  destruct (database s); [|reflexivity].
  destruct (Hopen eq_refl) as [-> ->]. reflexivity.
Qed.

(** X13: revalidating a live session sets its last access to the current
    time and changes no other field, also when the durable store fails;
    the session is then alive (for a lifetime that is not negative).  A
    failing query or commit is swallowed: the call returns as long as the
    transaction can be opened and released, or the session has no
    database. *)
Theorem revalidate_live (now : Z) (s : Session) (st : Store) :
  is_alive now s = true ->
  fst (fst (revalidate now s st)) = set_last_access now s /\
  (0 <= session_lifetime s ->
   is_alive now (fst (fst (revalidate now s st))) = true) /\
  ((database s = true ->
    st_faulty st OpConnect = false /\ st_faulty st OpClose = false) ->
   snd (revalidate now s st) = Ret tt).
Proof.
  intros Halive.
  assert (Hs : fst (fst (revalidate now s st)) = set_last_access now s)
    by now rewrite revalidate_session, Halive.
  split; [exact Hs|]. split.
  - intros Hlife. rewrite Hs. apply is_alive_spec. simpl. lia.
  - apply revalidate_returns.
Qed.

(** X14: what revalidating does to the durable store.  It never adds or
    removes a record, and never changes the token, the user or the groups
    of one, the permission table, or the record of another token; and
    when the session is alive and has a database, and connecting,
    querying and committing work, the record of its token carries the
    current time afterwards. *)
Theorem revalidate_store (now : Z) (s : Session) (st : Store) :
  let st' := snd (fst (revalidate now s st)) in
  List.map rec_identity (st_sessions st') =
    List.map rec_identity (st_sessions st) /\
  st_permissions st' = st_permissions st /\
  st_faulty st' = st_faulty st /\
  (forall tok, tok <> token s ->
     query_by_token tok st' = query_by_token tok st) /\
  (is_alive now s = true -> database s = true ->
   st_faulty st OpConnect = false -> st_faulty st OpQuery = false ->
   st_faulty st OpCommit = false ->
   forall r, query_by_token (token s) st = Some r ->
     query_by_token (token s) st' =
       Some {| rec_token := rec_token r; rec_user_name := rec_user_name r;
               rec_groups := rec_groups r; rec_last_access := now |}).
Proof.
  unfold revalidate, query_by_token.
  destruct (is_alive now s) eqn:Halive; cbn [negb].
  2: { cbn. repeat split; intros; try reflexivity; try congruence. }
  destruct (database s) eqn:Hdb; cbn [database set_last_access].
  2: { rewrite Hdb. cbn. repeat split; intros; try reflexivity; try congruence. }
  rewrite Hdb.
  destruct (st_faulty st OpConnect) eqn:Hco.
  { cbn. repeat split; intros; try reflexivity; try congruence. }
  destruct (st_faulty st OpQuery) eqn:Hq.
  { destruct (st_faulty st OpClose); cbn;
      repeat split; intros; try reflexivity; try congruence. }
  cbn [token last_access set_last_access].
  destruct (List.find (fun r => String.eqb (rec_token r) (token s))
              (st_sessions st)) as [r0|] eqn:Hfind.
  2: { destruct (st_faulty st OpClose); cbn;
         repeat split; intros; try reflexivity; try congruence. }
  destruct (st_faulty st OpCommit) eqn:Hcm.
  { destruct (st_faulty st OpClose); cbn;
      repeat split; intros; try reflexivity; try congruence. }
  destruct (st_faulty st OpClose); cbn;
    (split; [apply touch_record_identity|]);
    (split; [reflexivity|]); (split; [reflexivity|]);
    (split; [intros tok Hne; now apply touch_record_other|]);
    intros _ _ _ _ _ r Hr; injection Hr as <-;
    now apply touch_record_found.
Qed.

(** ** Looking sessions up and invalidating them *)

Section LookupProperties.
Context `{Backends}.

Lemma find_live_append (now : Z) (tok : string) (l : list Session)
    (s : Session) :
  find_live now tok l = None ->
  is_alive now s = true -> token s = tok ->
  find_live now tok (l ++ [s]) = Some (length l, s).
Proof.
  intros Hnone Halive Htok. induction l as [|x l IH]; simpl in *.
  - now rewrite Halive, Htok, String.eqb_refl.
  - destruct (is_alive now x && String.eqb (token x) tok); [discriminate|].
    destruct (find_live now tok l) as [[i s']|]; [discriminate|].
    now rewrite IH.
Qed.


Lemma query_deleted (tok : string) (rs : list SessionRecord) :
  List.find (fun r => String.eqb (rec_token r) tok) (delete_by_token tok rs)
    = None.
Proof.
  unfold delete_by_token.
  induction rs as [|r rs IH]; simpl; [reflexivity|].
  destruct (String.eqb (rec_token r) tok) eqn:Htok; simpl; [exact IH|].
  now rewrite Htok.
Qed.

(** After a successful [invalidate], a second one succeeds and changes
    nothing. *)
Lemma invalidate_again (tok : string) (w : World) :
  transactions_open w -> deletion_fails w = false ->
  invalidate tok (fst (invalidate tok w)) = (fst (invalidate tok w), Ret true).
Proof.
  intros Hopen Hok. rewrite (invalidate_open tok w Hopen). cbn [fst].
  destruct w as [m st].
  unfold invalidate, store_after_invalidate, deletion_fails,
    transactions_open in *.
  simpl in *.
  destruct (database_connection m) eqn:Hconn; simpl in *.
  - destruct (Hopen eq_refl) as [Hco Hcl].
    rewrite Hok. simpl. rewrite Hok, Hco, Hcl.
    rewrite remove_local_twice, delete_by_token_twice. reflexivity.
  - now rewrite remove_local_twice.
Qed.

(** X16: logging out.  After an [invalidate] that answered [True], with a
    store whose queries work, [get_session] no longer knows the token: it
    answers [None], whatever the time, and leaves memory and store as the
    invalidation left them. *)
Theorem invalidate_then_get_session (now : Z) (tok : string) (w : World) :
  enabled (auth_config (fst w)) = true ->
  transactions_open w ->
  st_faulty (snd w) OpQuery = false ->
  deletion_fails w = false ->
  snd (invalidate tok w) = Ret true /\
  get_session now tok (fst (invalidate tok w)) =
    (fst (invalidate tok w), Ret None).
Proof.
  intros Hen Hopen Hq Hok.
  pose proof (invalidate_again tok w Hopen Hok) as Hagain.
  rewrite (invalidate_open tok w Hopen) in *. cbn [fst snd] in *.
  rewrite Hok. split; [reflexivity|].
  destruct w as [m st]. cbn [fst snd] in *.
  unfold get_session. cbn [auth_config with_session_list sessions].
  rewrite Hen. cbn [negb].
  pose proof (live_with_remove_local now tok (sessions m)) as Hnone.
  apply find_live_None in Hnone. rewrite Hnone.
  assert (Hdb : get_local_session_from_db now tok
                  (with_session_list (remove_local tok (sessions m)) m,
                   store_after_invalidate tok (m, st)) = Ret None).
  { unfold get_local_session_from_db, store_after_invalidate,
      deletion_fails, transactions_open in *.
    cbn [fst snd database_connection with_session_list] in *.
    destruct (database_connection m); cbn [negb andb]; [|reflexivity].
    destruct (Hopen eq_refl) as [Hco Hcl]. cbn in Hok. rewrite Hok.
    cbn [negb with_sessions st_faulty]. rewrite Hco, Hq, Hcl.
    unfold query_by_token. cbn [st_sessions with_sessions].
    now rewrite query_deleted. }
  rewrite Hdb. now rewrite Hagain.
Qed.

(** X17: [invalidate] leaves the other tokens alone.  Whether it returns
    or raises, the in-memory sessions and the stored records of every
    other token are the same afterwards, in the same order, and so are
    the configuration, the login counter and the permission table. *)
Theorem invalidate_other_tokens (tok other : string) (w : World) :
  other <> tok ->
  let w' := fst (invalidate tok w) in
  List.filter (fun s => String.eqb (token s) other) (sessions (fst w')) =
    List.filter (fun s => String.eqb (token s) other) (sessions (fst w)) /\
  List.filter (fun r => String.eqb (rec_token r) other)
      (st_sessions (snd w')) =
    List.filter (fun r => String.eqb (rec_token r) other)
      (st_sessions (snd w)) /\
  same_settings w w' /\
  st_permissions (snd w') = st_permissions (snd w).
Proof.
  intros Hne w'. subst w'.
  assert (Hmem : forall l,
            List.filter (fun s => String.eqb (token s) other)
              (remove_local tok l) =
            List.filter (fun s => String.eqb (token s) other) l).
  { intros l. unfold remove_local. rewrite filter_twice.
    apply List.filter_ext. intros s.
    destruct (String.eqb (token s) other) eqn:Ho; [|apply andb_false_r].
    apply String.eqb_eq in Ho. rewrite Ho.
    apply String.eqb_neq in Hne. now rewrite Hne. }
  assert (Hsto : forall rs,
            List.filter (fun r => String.eqb (rec_token r) other)
              (delete_by_token tok rs) =
            List.filter (fun r => String.eqb (rec_token r) other) rs).
  { intros rs. unfold delete_by_token. rewrite filter_twice.
    apply List.filter_ext. intros r.
    destruct (String.eqb (rec_token r) other) eqn:Ho; [|apply andb_false_r].
    apply String.eqb_eq in Ho. rewrite Ho.
    apply String.eqb_neq in Hne. now rewrite Hne. }
  destruct w as [m st]. unfold invalidate.
  destruct (database_connection m).
  - destruct (st_faulty st OpConnect); [now repeat split|].
    destruct (st_faulty st OpDelete || st_faulty st OpCommit),
             (st_faulty st OpClose); cbn;
      rewrite ?Hmem, ?Hsto; now repeat split.
  - cbn. rewrite Hmem. now repeat split.
Qed.

(** X18: the pruning pass, with transactions that open and close.  It
    ends without an exception and with the login counter at 0, and it
    removes from memory exactly the sessions whose token is the token of
    a dead session: no dead session is left, and a session stays if every
    session with its token is alive. *)
Theorem cleanup_removes_dead_tokens (now : Z) (w : World) :
  transactions_open w ->
  let w' := fst (cleanup_sessions now w) in
  snd (cleanup_sessions now w) = Ret tt /\
  logins_since_prune (fst w') = 0 /\
  sessions (fst w') =
    List.filter
      (fun s => negb (str_in (token s) (dead_tokens now (sessions (fst w)))))
      (sessions (fst w)) /\
  Forall (fun s => is_alive now s = true) (sessions (fst w')) /\
  (forall s, In s (sessions (fst w)) ->
     (forall d, In d (sessions (fst w)) -> token d = token s ->
        is_alive now d = true) ->
     In s (sessions (fst w'))).
Proof.
  intros Hopen w'. subst w'.
  destruct (cleanup_open now w Hopen) as [Hret Hlive].
  destruct (cleanup_pruned now w) as [_ Hzero].
  assert (Hsess : sessions (fst (fst (cleanup_sessions now w))) =
            List.filter
              (fun s => negb (str_in (token s)
                                (dead_tokens now (sessions (fst w)))))
              (sessions (fst w))).
  { destruct w as [m st]. unfold cleanup_sessions.
    match goal with
    | |- context [invalidate_each ?toks ?w0] =>
        destruct (invalidate_each_open toks w0 Hopen) as [_ Hs]
    end.
    exact Hs. }
  repeat split; try assumption.
  intros s Hin Hall. rewrite Hsess. apply List.filter_In. split; [exact Hin|].
  apply negb_true_iff. destruct (str_in _ _) eqn:Hdead; [|reflexivity].
  apply str_in_In in Hdead. unfold dead_tokens in Hdead.
  apply in_map_iff in Hdead as (d & Htok & Hd).
  apply List.filter_In in Hd as [Hd Hnot].
  rewrite (Hall d Hd Htok) in Hnot. discriminate.
Qed.

End LookupProperties.

(** ** Logging in, once and again *)

Section LoginProperties.
Context `{Backends}.

Lemma count_login_logins (now : Z) (w : World) :
  logins_since_prune (fst (fst (count_login now w))) =
    if logins_until_cleanup (auth_config (fst w)) <=?
         logins_since_prune (fst w) + 1
    then 0 else logins_since_prune (fst w) + 1.
Proof.
  destruct w as [m st]. unfold count_login.
  cbn [fst snd with_logins logins_since_prune auth_config].
  destruct (logins_until_cleanup (auth_config m) <=? logins_since_prune m + 1).
  - apply cleanup_pruned.
  - reflexivity.
Qed.

Lemma find_app_last {A : Type} (p : A -> bool) (l : list A) (x : A) :
  List.find p l = None -> p x = true -> List.find p (l ++ [x]) = Some x.
Proof.
  intros Hnone Hx. induction l as [|y l IH]; simpl in *; [now rewrite Hx|].
  destruct (p y); [discriminate | now apply IH].
Qed.

(** The world [authenticate] leaves after a first login. *)
Lemma authenticate_first_login_world (now : Z) (fresh auth_string : string)
    (m : SessionManager) (st : Store) (v : Validation) :
  enabled (auth_config m) = true ->
  database_connection m = true ->
  st_faulty st OpConnect = false ->
  st_faulty st OpQuery = false ->
  st_faulty st OpClose = false ->
  validate (auth_config m) auth_string = Ret (Some v) ->
  query_tokens_of (v_username v) st = [] ->
  query_by_token fresh st = None ->
  live_with now fresh (sessions m) = [] ->
  let s := new_Session now fresh (v_username v) (default [] (v_groups v))
             (cfg_session_lifetime (auth_config m))
             (default false (v_root v)) true None in
  let st1 := store_after_invalidate fresh (m, st) in
  let st2 :=
    if st_faulty st OpAdd || st_faulty st OpCommit then st1
    else with_sessions
           (st_sessions st1 ++
              [{| rec_token := fresh; rec_user_name := v_username v;
                  rec_groups := join ";" (default [] (v_groups v));
                  rec_last_access := now |}]) st1 in
  authenticate now fresh auth_string (m, st) =
    ((with_session_list (remove_local fresh (sessions m) ++ [s]) m, st2),
     Ret (Granted s)).
Proof.
  intros Hen Hconn Hco Hq Hcl Hval Htokens Hfresh Hlive s st1 st2.
  subst s st1 st2.
  assert (Hopen : transactions_open (m, st)) by (intros _; now split).
  unfold authenticate. cbn [fst snd]. rewrite Hval.
  unfold get_db_session_tokens. rewrite Hconn, Hco, Hq, Hcl, Htokens.
  cbn [negb].
  unfold get_session. rewrite Hen. cbn [negb].
  apply find_live_None in Hlive. rewrite Hlive.
  unfold get_local_session_from_db.
  rewrite Hconn, Hco, Hq, Hcl, Hfresh. cbn [negb].
  rewrite invalidate_open by exact Hopen. cbn [fst snd].
  unfold store_login_record, store_after_invalidate.
  cbn [fst snd with_session_list database_connection auth_config sessions].
  rewrite Hconn.
  destruct (true && negb (deletion_fails (m, st)));
    cbn [with_sessions st_faulty st_sessions st_permissions];
    rewrite Hco, Hcl;
    destruct (st_faulty st OpAdd || st_faulty st OpCommit); reflexivity.
Qed.

(** What a first login through [create_or_get_session] leaves behind. *)
Lemma first_login_world (now : Z) (fresh auth_string : string) (w : World)
    (v : Validation) :
  enabled (auth_config (fst w)) = true ->
  database_connection (fst w) = true ->
  st_faulty (snd w) OpConnect = false ->
  st_faulty (snd w) OpQuery = false ->
  st_faulty (snd w) OpClose = false ->
  validate (auth_config (fst w)) auth_string = Ret (Some v) ->
  query_tokens_of (v_username v) (snd w) = [] ->
  query_by_token fresh (snd w) = None ->
  live_with now fresh (sessions (fst w)) = [] ->
  let s := new_Session now fresh (v_username v) (default [] (v_groups v))
             (cfg_session_lifetime (auth_config (fst w)))
             (default false (v_root v)) true None in
  let w' := fst (create_or_get_session now fresh auth_string w) in
  snd (create_or_get_session now fresh auth_string w) = Ret (Granted s) /\
  (exists l', sessions (fst w') = (l' ++ [s])%list /\
              find_live now fresh l' = None /\
              forall x, In x l' -> token x <> fresh) /\
  auth_config (fst w') = auth_config (fst w) /\
  database_connection (fst w') = true /\
  st_faulty (snd w') = st_faulty (snd w) /\
  st_permissions (snd w') = st_permissions (snd w) /\
  logins_since_prune (fst w') =
    (if logins_until_cleanup (auth_config (fst w)) <=?
          logins_since_prune (fst w) + 1
     then 0 else logins_since_prune (fst w) + 1) /\
  (st_faulty (snd w) OpAdd = false -> st_faulty (snd w) OpCommit = false ->
   query_by_token fresh (snd w') =
     Some {| rec_token := fresh; rec_user_name := v_username v;
             rec_groups := join ";" (default [] (v_groups v));
             rec_last_access := now |} /\
   query_tokens_of (v_username v) (snd w') = [fresh]).
Proof.
  intros Hen Hconn Hco Hq Hcl Hval Htokens Hfresh Hlive s w'. subst s w'.
  assert (Hopen : transactions_open w) by (intros _; now split).
  pose proof (count_login_logins now w) as Hlogins.
  unfold create_or_get_session. rewrite Hen. cbn [negb].
  destruct (count_login_open now w Hopen) as (w2 & Hcount & Hp).
  rewrite Hcount in *. cbn [fst] in Hlogins.
  destruct (pruned_keeps_first_login now fresh (v_username v) w w2
              Hp Htokens Hfresh Hlive) as (Htokens2 & Hfresh2 & Hlive2).
  destruct Hp as (Hc & Hd & Hf & Hperm & _).
  destruct w2 as [m2 st2]. cbn [fst snd] in *.
  rewrite (authenticate_first_login_world now fresh auth_string m2 st2 v)
    by (rewrite ?Hc, ?Hd, ?Hf; assumption).
  cbn [fst snd with_session_list sessions auth_config database_connection
         logins_since_prune].
  rewrite Hc.
  assert (Hopen2 : transactions_open (m2, st2)).
  { intros _. cbn [snd]. rewrite Hf. now split. }
  pose proof (invalidate_pruned fresh (m2, st2)) as [Hp1 _].
  rewrite (invalidate_open fresh (m2, st2) Hopen2) in Hp1. cbn [fst] in Hp1.
  destruct (pruned_keeps_first_login now fresh (v_username v) _ _
              Hp1 Htokens2 Hfresh2 Hlive2) as (Htokens1 & Hfresh1 & _).
  destruct Hp1 as (_ & _ & Hf1 & Hperm1 & _). cbn [fst snd] in *.
  split; [reflexivity|]. split.
  { eexists. split; [reflexivity|]. split.
    - apply find_live_None, live_with_remove_local.
    - intros x Hx. unfold remove_local in Hx.
      apply List.filter_In in Hx as [_ Hx].
      apply negb_true_iff in Hx. now apply String.eqb_neq. }
  split; [reflexivity|]. split; [congruence|].
  destruct (st_faulty st2 OpAdd || st_faulty st2 OpCommit) eqn:Hadd.
  - split; [congruence|]. split; [congruence|]. split; [exact Hlogins|].
    intros Ha Hcm. rewrite <- Hf in Ha, Hcm.
    rewrite Ha, Hcm in Hadd. discriminate.
  - cbn [with_sessions st_faulty st_permissions st_sessions].
    split; [congruence|]. split; [congruence|]. split; [exact Hlogins|].
    intros _ _. split.
    + unfold query_by_token in *. cbn [st_sessions with_sessions].
      apply find_app_last; [exact Hfresh1 | apply String.eqb_refl].
    + unfold query_tokens_of in *. cbn [st_sessions with_sessions].
      rewrite List.filter_app, List.map_app, Htokens1. simpl.
      now rewrite String.eqb_refl.
Qed.

(** X19: a session outlives the process.  After a first login with a
    store that answers and takes the insertion, a manager that starts
    with an empty memory on the same store finds the session by its
    token, as long as the lifetime has not run out: with the token, the
    user and the last access of the login.  Groups that hold no semicolon
    come back as they were, except that no group at all comes back as the
    one empty group; and the root flag is not the one of the login: it is
    read off the permission table. *)
Theorem session_survives_restart (now later : Z) (fresh auth_string : string)
    (w : World) (v : Validation) :
  enabled (auth_config (fst w)) = true ->
  database_connection (fst w) = true ->
  st_faulty (snd w) OpConnect = false ->
  st_faulty (snd w) OpQuery = false ->
  st_faulty (snd w) OpClose = false ->
  st_faulty (snd w) OpAdd = false ->
  st_faulty (snd w) OpCommit = false ->
  validate (auth_config (fst w)) auth_string = Ret (Some v) ->
  query_tokens_of (v_username v) (snd w) = [] ->
  query_by_token fresh (snd w) = None ->
  live_with now fresh (sessions (fst w)) = [] ->
  Forall (fun g => count ";" g = 0%nat) (default [] (v_groups v)) ->
  later - now <= cfg_session_lifetime (auth_config (fst w)) ->
  let st' := snd (fst (create_or_get_session now fresh auth_string w)) in
  let restarted :=
    set_database_connection true (new_manager (auth_config (fst w))) in
  let s :=
    {| token := fresh; user := v_username v;
       groups := groups_read_back (default [] (v_groups v));
       session_lifetime := cfg_session_lifetime (auth_config (fst w));
       is_root := query_permission (v_username v) (snd w);
       database := true;
       last_access := now |} in
  get_session later fresh (restarted, st') =
    ((with_session_list [s] restarted, st'), Ret (Some (Cached 0 s))).
Proof.
  intros Hen Hconn Hco Hq Hcl Hadd Hcm Hval Htokens Hfresh Hlive Hgroups
    Hlater st' restarted s.
  destruct (first_login_world now fresh auth_string w v
              Hen Hconn Hco Hq Hcl Hval Htokens Hfresh Hlive)
    as (_ & _ & _ & _ & Hf & Hperm & _ & Hstored).
  destruct (Hstored Hadd Hcm) as [Hrec _].
  fold st' in Hf, Hperm, Hrec.
  unfold get_session, restarted. cbn [fst snd auth_config set_database_connection
    new_manager sessions find_live database_connection].
  rewrite Hen. cbn [negb].
  unfold get_local_session_from_db.
  cbn [fst snd auth_config database_connection negb].
  rewrite Hf, Hco, Hq, Hcl, Hrec.
  cbn [rec_user_name rec_groups rec_last_access].
  rewrite (split_join ";" _ Hgroups).
  unfold query_permission. rewrite Hperm.
  fold (groups_read_back (default [] (v_groups v))).
  cbn [database_connection set_database_connection new_manager auth_config
         negb].
  match goal with
  | |- context [is_alive later ?x] =>
      assert (Halive : is_alive later x = true)
        by (apply is_alive_spec; simpl; lia)
  end.
  rewrite Halive. reflexivity.
Qed.

(** X20: in the same process, the session of a first login is found by
    its token for as long as its lifetime runs, and [get_session] changes
    nothing, the last access included. *)
Theorem first_login_then_get_session (now later : Z)
    (fresh auth_string : string) (w : World) (v : Validation) :
  enabled (auth_config (fst w)) = true ->
  database_connection (fst w) = true ->
  st_faulty (snd w) OpConnect = false ->
  st_faulty (snd w) OpQuery = false ->
  st_faulty (snd w) OpClose = false ->
  validate (auth_config (fst w)) auth_string = Ret (Some v) ->
  query_tokens_of (v_username v) (snd w) = [] ->
  query_by_token fresh (snd w) = None ->
  live_with now fresh (sessions (fst w)) = [] ->
  later - now <= cfg_session_lifetime (auth_config (fst w)) ->
  let w' := fst (create_or_get_session now fresh auth_string w) in
  exists i s,
    snd (create_or_get_session now fresh auth_string w) = Ret (Granted s) /\
    get_session later fresh w' = (w', Ret (Some (Cached i s))) /\
    last_access s = now.
Proof.
  intros Hen Hconn Hco Hq Hcl Hval Htokens Hfresh Hlive Hlater w'.
  destruct (first_login_world now fresh auth_string w v
              Hen Hconn Hco Hq Hcl Hval Htokens Hfresh Hlive)
    as (Hret & (l' & Hsess & _ & Hother) & Hc & _).
  fold w' in Hsess, Hc.
  eexists (length l'), _. split; [exact Hret|]. split; [|reflexivity].
  destruct w' as [m' st']. cbn [fst snd] in *.
  unfold get_session. rewrite Hc, Hen. cbn [negb]. rewrite Hsess.
  rewrite (find_live_append later fresh l'); [reflexivity | | | reflexivity].
  - apply find_live_None, filter_none. intros x Hx.
    specialize (Hother x Hx). apply String.eqb_neq in Hother.
    rewrite Hother. apply andb_false_r.
  - apply is_alive_spec. simpl. lia.
Qed.

End LoginProperties.

Section RepeatedLogin.
Context `{Backends}.

(** A login that finds a live session under the first stored token of the
    user: the session is revalidated where it sits and returned. *)
Lemma login_again (now : Z) (fresh auth_string : string) (m : SessionManager)
    (st : Store) (v : Validation) (tok : string) (others : list string)
    (i : nat) (s : Session) :
  enabled (auth_config m) = true ->
  database_connection m = true ->
  st_faulty st OpConnect = false ->
  st_faulty st OpQuery = false ->
  st_faulty st OpClose = false ->
  logins_since_prune m + 1 < logins_until_cleanup (auth_config m) ->
  validate (auth_config m) auth_string = Ret (Some v) ->
  query_tokens_of (v_username v) st = tok :: others ->
  find_live now tok (sessions m) = Some (i, s) ->
  create_or_get_session now fresh auth_string (m, st) =
    ((with_session_list (<[i := set_last_access now s]> (sessions m))
        (with_logins (logins_since_prune m + 1) m),
      snd (fst (revalidate now s st))),
     Ret (Granted (set_last_access now s))).
Proof.
  intros Hen Hconn Hco Hq Hcl Hcount Hval Htokens Hfind.
  destruct (find_live_Some _ _ _ _ _ Hfind) as (_ & Halive & _).
  unfold create_or_get_session. cbn [fst]. rewrite Hen. cbn [negb].
  unfold count_login. cbn [with_logins auth_config logins_since_prune].
  assert (Hnot : (logins_until_cleanup (auth_config m) <=?
                  logins_since_prune m + 1) = false)
    by (apply Z.leb_gt; lia).
  rewrite Hnot.
  unfold authenticate. cbn [fst snd auth_config with_logins]. rewrite Hval.
  unfold get_db_session_tokens. cbn [database_connection with_logins].
  rewrite Hconn, Hco, Hq, Hcl, Htokens. cbn [negb].
  unfold get_session. cbn [auth_config sessions with_logins].
  rewrite Hen. cbn [negb].
  rewrite Hfind.
  unfold revalidate_ref. cbn [ref_session].
  pose proof (revalidate_session now s st) as Hs.
  pose proof (revalidate_returns now s st (fun _ => conj Hco Hcl)) as Hr.
  rewrite Halive in Hs.
  destruct (revalidate now s st) as [[s' st'] res].
  cbn [fst snd] in *. subst s' res. reflexivity.
Qed.

(** X21: logging in again.  When the first token the store holds for the
    user has a live session in memory, and no pruning is due, the login
    returns that session, revalidated: the token, the user, the groups
    and the root flag are those of the session, not those of the new
    validation; no token is generated and no session is added. *)
Theorem login_again_reuses_session (now : Z) (fresh auth_string : string)
    (m : SessionManager) (st : Store) (v : Validation) (tok : string)
    (others : list string) (i : nat) (s : Session) :
  enabled (auth_config m) = true ->
  database_connection m = true ->
  st_faulty st OpConnect = false ->
  st_faulty st OpQuery = false ->
  st_faulty st OpClose = false ->
  logins_since_prune m + 1 < logins_until_cleanup (auth_config m) ->
  validate (auth_config m) auth_string = Ret (Some v) ->
  query_tokens_of (v_username v) st = tok :: others ->
  find_live now tok (sessions m) = Some (i, s) ->
  let w' := fst (create_or_get_session now fresh auth_string (m, st)) in
  exists s',
    snd (create_or_get_session now fresh auth_string (m, st)) =
      Ret (Granted s') /\
    sessions (fst w') !! i = Some s' /\
    length (sessions (fst w')) = length (sessions m) /\
    token s' = tok /\ user s' = user s /\ groups s' = groups s /\
    is_root s' = is_root s /\ last_access s' = now.
Proof.
  intros Hen Hconn Hco Hq Hcl Hcount Hval Htokens Hfind w'. subst w'.
  rewrite (login_again now fresh auth_string m st v tok others i s)
    by assumption.
  destruct (find_live_Some _ _ _ _ _ Hfind) as (Hi & _ & Htok).
  exists (set_last_access now s). cbn [fst snd with_session_list sessions].
  split; [reflexivity|]. split.
  { apply list_lookup_insert_eq. now apply lookup_lt_Some in Hi. }
  split; [apply length_insert|].
  now repeat split.
Qed.

(** X22: two logins, one token.  After a first login with a store that
    answers and takes the insertion, a second login of the same user
    name, within the lifetime and with no pruning due, returns the
    session of the first login with its last access moved: the same
    token, and the groups and the root flag of the first login, whatever
    the second validation says. *)
Theorem second_login_same_session (now later : Z)
    (fresh fresh2 auth_string auth_string2 : string) (w : World)
    (v v2 : Validation) :
  enabled (auth_config (fst w)) = true ->
  database_connection (fst w) = true ->
  st_faulty (snd w) OpConnect = false ->
  st_faulty (snd w) OpQuery = false ->
  st_faulty (snd w) OpClose = false ->
  st_faulty (snd w) OpAdd = false ->
  st_faulty (snd w) OpCommit = false ->
  validate (auth_config (fst w)) auth_string = Ret (Some v) ->
  query_tokens_of (v_username v) (snd w) = [] ->
  query_by_token fresh (snd w) = None ->
  live_with now fresh (sessions (fst w)) = [] ->
  validate (auth_config (fst w)) auth_string2 = Ret (Some v2) ->
  v_username v2 = v_username v ->
  logins_since_prune (fst w) + 2 <
    logins_until_cleanup (auth_config (fst w)) ->
  later - now <= cfg_session_lifetime (auth_config (fst w)) ->
  let w' := fst (create_or_get_session now fresh auth_string w) in
  exists s,
    snd (create_or_get_session now fresh auth_string w) = Ret (Granted s) /\
    snd (create_or_get_session later fresh2 auth_string2 w') =
      Ret (Granted (set_last_access later s)) /\
    token s = fresh.
Proof.
  intros Hen Hconn Hco Hq Hcl Hadd Hcm Hval Htokens Hfresh Hlive
    Hval2 Huser Hcount Hlater w'.
  destruct (first_login_world now fresh auth_string w v
              Hen Hconn Hco Hq Hcl Hval Htokens Hfresh Hlive)
    as (Hret & (l' & Hsess & _ & Hother) & Hc & Hd & Hf & _ & Hlogins
        & Hstored).
  destruct (Hstored Hadd Hcm) as [_ Htok].
  fold w' in Hsess, Hc, Hd, Hf, Hlogins, Htok.
  eexists. split; [exact Hret|]. split; [|reflexivity].
  destruct w' as [m' st']. cbn [fst snd] in *.
  assert (Hnot : (logins_until_cleanup (auth_config (fst w)) <=?
                  logins_since_prune (fst w) + 1) = false)
    by (apply Z.leb_gt; lia).
  rewrite Hnot in Hlogins.
  match goal with
  | |- context [Granted (set_last_access later ?s0)] => set (s := s0) in *
  end.
  assert (Hfind : find_live later fresh (sessions m') =
                  Some (length l', s)).
  { rewrite Hsess. apply find_live_append; [| |reflexivity].
    - apply find_live_None, filter_none. intros x Hx.
      specialize (Hother x Hx). apply String.eqb_neq in Hother.
      rewrite Hother. apply andb_false_r.
    - apply is_alive_spec. simpl. lia. }
  rewrite (login_again later fresh2 auth_string2 m' st' v2 fresh []
             (length l') s); try reflexivity;
    rewrite ?Hc, ?Hf, ?Hlogins, ?Huser; try assumption.
  lia.
Qed.

(** X23: a rejected credential creates nothing.  With transactions that
    open and close, [create_or_get_session] answers [False] for a
    credential no validator accepts; it adds no session and no record
    (memory and store only lose what the pruning takes), and when no
    pruning is due the call changes the login counter and nothing
    else. *)
Theorem rejected_login_adds_nothing (now : Z) (fresh auth_string : string)
    (w : World) :
  enabled (auth_config (fst w)) = true ->
  transactions_open w ->
  validate (auth_config (fst w)) auth_string = Ret None ->
  let w' := fst (create_or_get_session now fresh auth_string w) in
  snd (create_or_get_session now fresh auth_string w) = Ret Rejected /\
  pruned_from w w' /\
  (logins_since_prune (fst w) + 1 <
     logins_until_cleanup (auth_config (fst w)) ->
   w' = (with_logins (logins_since_prune (fst w) + 1) (fst w), snd w)).
Proof.
  intros Hen Hopen Hval w'. subst w'.
  unfold create_or_get_session. rewrite Hen. cbn [negb].
  destruct (count_login_open now w Hopen) as (w2 & Hcount & Hp).
  rewrite Hcount. unfold authenticate.
  destruct Hp as (Hc & Hrest). rewrite Hc, Hval. cbn [fst snd].
  split; [reflexivity|]. split; [now split|].
  intros Hnot. destruct w as [m st]. unfold count_login in Hcount.
  cbn [fst snd with_logins auth_config logins_since_prune] in *.
  apply Z.leb_gt in Hnot. rewrite Hnot in Hcount. congruence.
Qed.

End RepeatedLogin.

(** ** What holds in every reachable world *)

Section ReachableProperties.
Context `{Backends}.

Lemma create_or_get_session_config (now : Z) (fresh auth_string : string)
    (w : World) :
  auth_config (fst (fst (create_or_get_session now fresh auth_string w))) =
    auth_config (fst w).
Proof.
  unfold create_or_get_session.
  destruct (enabled (auth_config (fst w))) eqn:Hen; [|reflexivity].
  cbn [negb].
  destruct (count_login_facts now w) as (_ & Hc & _).
  destruct (count_login now w) as [w2 [u|e]]; cbn [fst] in *; [|exact Hc].
  assert (Hen2 : enabled (auth_config (fst w2)) = true) by now rewrite Hc.
  destruct (authenticate_facts now fresh auth_string w2 Hen2)
    as [_ (Hc2 & _)].
  congruence.
Qed.

Lemma create_or_get_session_logins (now : Z) (fresh auth_string : string)
    (w : World) :
  let after_call :=
    logins_since_prune
      (fst (fst (create_or_get_session now fresh auth_string w))) in
  after_call = logins_since_prune (fst w) \/
  after_call = 0 \/
  (after_call = logins_since_prune (fst w) + 1 /\
   logins_since_prune (fst w) + 1 < logins_until_cleanup (auth_config (fst w))).
Proof.
  unfold create_or_get_session.
  destruct (enabled (auth_config (fst w))) eqn:Hen; [|now left].
  cbn [negb].
  pose proof (count_login_logins now w) as Hl.
  destruct (count_login_facts now w) as (_ & Hc & _).
  assert (Hgoal : forall n,
            n = logins_since_prune (fst (fst (count_login now w))) ->
            n = logins_since_prune (fst w) \/ n = 0 \/
            (n = logins_since_prune (fst w) + 1 /\
             logins_since_prune (fst w) + 1 <
               logins_until_cleanup (auth_config (fst w)))).
  { intros n ->. rewrite Hl.
    destruct (logins_until_cleanup (auth_config (fst w)) <=?
              logins_since_prune (fst w) + 1) eqn:Hdue.
    - right. now left.
    - right. right. apply Z.leb_gt in Hdue. now split. }
  destruct (count_login now w) as [w2 [u|e]]; cbn [fst] in *;
    [|now apply Hgoal].
  assert (Hen2 : enabled (auth_config (fst w2)) = true) by now rewrite Hc.
  destruct (authenticate_facts now fresh auth_string w2 Hen2)
    as [_ (_ & _ & Hl2)].
  now apply Hgoal.
Qed.

Lemma after_config (now : Z) (c : Call) (w : World) :
  auth_config (fst (after now c w)) = auth_config (fst w).
Proof.
  destruct c as [fresh auth_string|tok|tok|]; cbn [after].
  - apply create_or_get_session_config.
  - destruct (enabled (auth_config (fst w))) eqn:Hen.
    + destruct (get_session now tok w) as [w' r] eqn:Hget.
      now destruct (get_session_facts now tok w w' r Hen Hget)
        as (_ & (Hc & _) & _).
    + now rewrite get_session_disabled.
  - apply invalidate_settings.
  - apply cleanup_pruned.
Qed.

Lemma reachable_config (cfg : AuthConfig) (now : Z) (w : World) :
  reachable cfg now w -> auth_config (fst w) = cfg.
Proof.
  induction 1 as [now st | now now' c w _ IH Hle | now now' w _ IH Hle
                 | now m st st' _ IH | now connection m st _ IH];
    try assumption; try reflexivity.
  now rewrite after_config.
Qed.

(** X24: the login counter of a manager stays within its bounds.  In
    every world the manager can reach, the configuration is the one it
    was built with, and the counter is 0 or positive and below
    [logins_until_cleanup]: it never reaches the threshold, since the
    call that would take it there resets it. *)
Theorem login_counter_bounded (cfg : AuthConfig) (now : Z) (w : World) :
  reachable cfg now w ->
  auth_config (fst w) = cfg /\
  0 <= logins_since_prune (fst w) /\
  (logins_since_prune (fst w) = 0 \/
   logins_since_prune (fst w) < logins_until_cleanup cfg).
Proof.
  intros Hreach. split; [now apply (reachable_config cfg now)|].
  induction Hreach as [now st | now now' c w Hreach IH Hle
                      | now now' w _ IH Hle
                      | now m st st' _ IH | now connection m st _ IH];
    try exact IH.
  - cbn. split; [lia | now left].
  - pose proof (reachable_config cfg now w Hreach) as Hcfg.
    destruct IH as [Hpos Hbound].
    destruct c as [fresh auth_string|tok|tok|]; cbn [after].
    + pose proof (create_or_get_session_logins now' fresh auth_string w)
        as Hl. cbn zeta in Hl. rewrite Hcfg in Hl.
      destruct Hl as [-> | [-> | [-> Hlt]]]; [now split | | ];
        (split; [lia|]); [now left | now right].
    + destruct (enabled (auth_config (fst w))) eqn:Hen.
      * destruct (get_session now' tok w) as [w' r] eqn:Hget.
        destruct (get_session_facts now' tok w w' r Hen Hget)
          as (_ & (_ & _ & Hl) & _).
        cbn [fst]. rewrite Hl. now split.
      * rewrite get_session_disabled by exact Hen. now split.
    + destruct (invalidate_settings tok w) as (_ & _ & Hl).
      rewrite Hl. now split.
    + destruct (cleanup_pruned now' w) as [_ Hl]. rewrite Hl.
      split; [lia | now left].
Qed.

(** The sessions of a list all have the lifetime of the configuration. *)
Lemma get_session_lifetimes (now : Z) (tok : string) (w : World) :
  enabled (auth_config (fst w)) = true ->
  Forall (fun s => session_lifetime s =
                   cfg_session_lifetime (auth_config (fst w)))
    (sessions (fst w)) ->
  Forall (fun s => session_lifetime s =
                   cfg_session_lifetime (auth_config (fst w)))
    (sessions (fst (fst (get_session now tok w)))).
Proof.
  destruct w as [m st]. cbn [fst]. intros Hen Hall.
  unfold get_session. rewrite Hen. cbn [negb].
  destruct (find_live now tok (sessions m)) as [[i0 s0]|]; [exact Hall|].
  assert (Hinv : Forall (fun s => session_lifetime s =
                                  cfg_session_lifetime (auth_config m))
                   (sessions (fst (fst (invalidate tok (m, st)))))).
  { destruct (invalidate_pruned tok (m, st))
      as [(_ & _ & _ & _ & [keep Hkeep] & _) _].
    rewrite Hkeep. cbn [fst]. rewrite List.Forall_forall in *.
    intros s Hs. apply List.filter_In in Hs as [Hs _]. now apply Hall. }
  destruct (get_local_session_from_db now tok (m, st)) as [[s0|]|e] eqn:Hdb.
  - apply get_local_session_from_db_token in Hdb as [_ Hlife].
    destruct (is_alive now s0).
    + cbn [fst sessions with_session_list].
      apply Forall_app. split; [exact Hall | now constructor].
    + destruct (invalidate tok (m, st)) as [w'' [b|e]]; exact Hinv.
  - destruct (invalidate tok (m, st)) as [w'' [b|e]]; exact Hinv.
  - exact Hall.
Qed.

Lemma after_lifetimes (now : Z) (c : Call) (w : World) :
  Forall (fun s => session_lifetime s =
                   cfg_session_lifetime (auth_config (fst w)))
    (sessions (fst w)) ->
  Forall (fun s => session_lifetime s =
                   cfg_session_lifetime (auth_config (fst w)))
    (sessions (fst (after now c w))).
Proof.
  intros Hall.
  assert (Hpruned : forall w', pruned_from w w' ->
            Forall (fun s => session_lifetime s =
                             cfg_session_lifetime (auth_config (fst w)))
              (sessions (fst w'))).
  { intros w' (_ & _ & _ & _ & [keep Hkeep] & _). rewrite Hkeep.
    rewrite List.Forall_forall in *. intros s Hs.
    apply List.filter_In in Hs as [Hs _]. now apply Hall. }
  destruct c as [fresh auth_string|tok|tok|]; cbn [after].
  - unfold create_or_get_session.
    destruct (enabled (auth_config (fst w))) eqn:Hen; [|exact Hall].
    cbn [negb].
    assert (Hcount : Forall (fun s => session_lifetime s =
                               cfg_session_lifetime (auth_config (fst w)))
                       (sessions (fst (fst (count_login now w))))).
    { destruct w as [m st]. unfold count_login.
      cbn [fst snd with_logins auth_config logins_since_prune] in *.
      destruct (logins_until_cleanup (auth_config m) <=?
                logins_since_prune m + 1); [|exact Hall].
      destruct (cleanup_pruned now
                  (with_logins (logins_since_prune m + 1) m, st))
        as [(_ & _ & _ & _ & [keep Hkeep] & _) _].
      rewrite Hkeep. cbn [fst sessions with_logins].
      rewrite List.Forall_forall in *. intros s Hs.
      apply List.filter_In in Hs as [Hs _]. now apply Hall. }
    destruct (count_login_facts now w) as (_ & Hc & _).
    destruct (count_login now w) as [w2 [u|e]]; cbn [fst] in *;
      [|exact Hcount].
    rewrite <- Hc in *.
    assert (Hen2 : enabled (auth_config (fst w2)) = true) by exact Hen.
    unfold authenticate.
    destruct (validate (auth_config (fst w2)) auth_string) as [[v|]|e];
      try exact Hcount.
    destruct (get_db_session_tokens (v_username v) w2) as [[tokens|]|e];
      try exact Hcount.
    set (tok := match tokens with t :: _ => t | [] => fresh end).
    pose proof (get_session_lifetimes now tok w2 Hen2 Hcount) as Hget.
    destruct (get_session now tok w2) as [w3 r] eqn:Hg.
    destruct (get_session_facts now tok w2 w3 r Hen2 Hg)
      as (_ & (Hc3 & _) & Hr).
    cbn [fst] in Hget.
    destruct r as [[[i s|s]|]|e]; cbn beta iota zeta.
    + unfold revalidate_ref. destruct w3 as [m3 st3].
      pose proof (revalidate_session now s st3) as Hs.
      cbn [ref_session].
      destruct (revalidate now s st3) as [[s' st'] res].
      cbn [fst snd] in *. subst s'.
      assert (Hins : Forall (fun s => session_lifetime s =
                               cfg_session_lifetime (auth_config (fst w2)))
                       (<[i := if is_alive now s
                               then set_last_access now s else s]>
                          (sessions m3))).
      { apply Forall_insert; [exact Hget|].
        destruct Hr as (Hi & _).
        rewrite Forall_lookup in Hget. specialize (Hget i s Hi).
        now destruct (is_alive now s). }
      destruct res; exact Hins.
    + unfold revalidate_ref. destruct w3 as [m3 st3].
      destruct (revalidate now (ref_session (Detached s)) st3)
        as [[s' st'] res].
      destruct res; exact Hget.
    + match goal with
      | |- context [store_login_record ?n ?t ?u ?g ?w4] =>
          pose proof (store_login_record_sessions n t u g w4) as Hsame;
          destruct (store_login_record n t u g w4) as [w5 [u0|e]]
      end; cbn [fst] in *; rewrite Hsame;
        cbn [fst sessions with_session_list];
        (apply Forall_app; split; [exact Hget|]);
        constructor; [|constructor| |constructor]; cbn; congruence.
    + exact Hget.
  - destruct (enabled (auth_config (fst w))) eqn:Hen.
    + now apply get_session_lifetimes.
    + now rewrite get_session_disabled.
  - apply Hpruned, invalidate_pruned.
  - apply Hpruned, cleanup_pruned.
Qed.

(** X25: one lifetime for all sessions.  In every world the manager can
    reach, each session of the in-memory list has the lifetime of the
    configuration, whether it was created by a login or loaded from the
    store. *)
Theorem sessions_share_configured_lifetime (cfg : AuthConfig) (now : Z)
    (w : World) :
  reachable cfg now w ->
  Forall (fun s => session_lifetime s = cfg_session_lifetime cfg)
    (sessions (fst w)).
Proof.
  induction 1 as [now st | now now' c w Hreach IH Hle | now now' w _ IH Hle
                 | now m st st' _ IH | now connection m st _ IH];
    try exact IH.
  - constructor.
  - pose proof (reachable_config cfg now w Hreach) as Hcfg.
    rewrite <- Hcfg in *. now apply after_lifetimes.
Qed.

End ReachableProperties.

(** ** What [get_session] answers, and a store that cannot be reached *)

Section AnswerProperties.
Context `{Backends}.

(** X26: what an answer of [get_session] tells.  A session handed out
    from the in-memory list is in the list at the place given, is alive
    and carries the token asked for; and after the answer [None] of an
    enabled manager, no session with the token is left in memory. *)
Theorem get_session_answers (now : Z) (tok : string) (w w' : World)
    (r : option SessionRef) :
  enabled (auth_config (fst w)) = true ->
  get_session now tok w = (w', Ret r) ->
  match r with
  | Some (Cached i s) =>
      sessions (fst w') !! i = Some s /\ is_alive now s = true /\
      token s = tok
  | Some (Detached s) => is_alive now s = false /\ token s = tok
  | None =>
      List.filter (fun s => String.eqb (token s) tok) (sessions (fst w')) = []
  end.
Proof.
  destruct w as [m st]. cbn [fst]. intros Hen.
  unfold get_session. rewrite Hen. cbn [negb].
  destruct (find_live now tok (sessions m)) as [[i0 s0]|] eqn:Hfind.
  { intros Heq. injection Heq as <- <-. now apply find_live_Some. }
  assert (Hgone : forall w'' b, invalidate tok (m, st) = (w'', Ret b) ->
            List.filter (fun s => String.eqb (token s) tok)
              (sessions (fst w'')) = []).
  { intros w'' b Hinv. rewrite (invalidate_returns _ _ _ _ Hinv).
    unfold remove_local. rewrite filter_twice. apply filter_none.
    intros s _. now destruct (String.eqb (token s) tok). }
  destruct (get_local_session_from_db now tok (m, st)) as [[s0|]|e] eqn:Hdb.
  - apply get_local_session_from_db_token in Hdb as [Htok _].
    destruct (is_alive now s0) eqn:Halive.
    + intros Heq. injection Heq as <- <-.
      cbn [fst sessions with_session_list].
      split; [now apply list_lookup_middle | now split].
    + destruct (invalidate tok (m, st)) as [w'' [b|e]]; [|discriminate].
      intros Heq. injection Heq as <- <-. now split.
  - destruct (invalidate tok (m, st)) as [w'' [b|e]] eqn:Hinv;
      [|discriminate].
    intros Heq. injection Heq as <- <-. now apply (Hgone w'' b).
  - discriminate.
Qed.

(** X27: a connection that cannot open a transaction.  When the manager
    has a connection and the call that opens the transaction raises, the
    [finally] clauses read a name that was never bound:
    [get_db_session_tokens] and [invalidate] raise [UnboundLocalError],
    and so does [get_session] for every token that has no live session in
    memory; none of them changes memory or store. *)
Theorem unreachable_store_raises (now : Z) (tok user_name : string)
    (w : World) :
  database_connection (fst w) = true ->
  st_faulty (snd w) OpConnect = true ->
  get_db_session_tokens user_name w = Raise UnboundLocalError /\
  invalidate tok w = (w, Raise UnboundLocalError) /\
  (enabled (auth_config (fst w)) = true ->
   find_live now tok (sessions (fst w)) = None ->
   get_session now tok w = (w, Raise UnboundLocalError)).
Proof.
  destruct w as [m st]. cbn [fst snd]. intros Hconn Hco.
  split; [|split].
  - unfold get_db_session_tokens. now rewrite Hconn, Hco.
  - unfold invalidate. now rewrite Hconn, Hco.
  - intros Hen Hfind. unfold get_session, get_local_session_from_db.
    now rewrite Hen, Hfind, Hconn, Hco.
Qed.

End AnswerProperties.

(** * The further properties on the concrete installation *)

Module MoreFacts.
Import Scenario Files.
#[local] Existing Instance backends.

Lemma alice_at_0_reachable : reachable dictionary_cfg 0 alice_at_0.
Proof.
  apply (reach_call dictionary_cfg 0 0 (CallLogin "A" "alice:secret")
           (connected dictionary_cfg, empty_store)); [|lia].
  apply reach_connection, reach_new.
Defined.

(** X2, on a secret with a colon. *)
Lemma get_user_name_witness :
  count ":" "alice" = 0%nat /\ get_user_name "alice:se:cret" = "alice".
Proof.
  split; [reflexivity|].
  exact (proj2 (get_user_name_before_first_colon "alice" eq_refl) "se:cret").
Defined.

(** X4, on a credential without a colon. *)
Lemma try_auth_pam_witness :
  method_pam pam_ldap_cfg =
    Some {| pam_enabled := true; pam_settings := tt |} /\
  cc_pam_importable = true /\
  count ":" "bob" <> 1%nat /\
  try_auth_pam pam_ldap_cfg "bob" = Raise ValueError.
Proof.
  assert (Hcount : count ":" "bob" <> 1%nat) by (simpl; lia).
  split; [reflexivity|]. split; [reflexivity|]. split; [exact Hcount|].
  exact (proj1 (try_auth_pam_enabled pam_ldap_cfg tt "bob" eq_refl eq_refl)
           Hcount).
Defined.

(** X5, on a well-formed credential. *)
Lemma try_auth_ldap_witness :
  method_ldap ldap_only_cfg =
    Some {| ldap_enabled := true; ldap_authorities := Some [tt] |} /\
  cc_ldap_importable = true /\
  try_auth_ldap ldap_only_cfg "bob:pass" =
    Ret (Some {| v_username := "bob"; v_groups := Some ["staff"];
                 v_root := None |}).
Proof.
  split; [reflexivity|]. split; [reflexivity|].
  exact (proj2 (try_auth_ldap_enabled ldap_only_cfg [tt] "bob:pass"
                  eq_refl eq_refl) "bob" "pass" eq_refl eq_refl eq_refl).
Defined.

(** X6, on a host without bindings. *)
Lemma missing_binding_witness :
  @cc_pam_importable bare_backends = false /\
  @try_auth_pam bare_backends bare_host_cfg "bob:pa:ss" = Ret None.
Proof.
  split; [reflexivity|].
  exact (proj1 (@missing_binding_rejects bare_backends bare_host_cfg
                  "bob:pa:ss") eq_refl).
Defined.

(** X8, on the dictionary file. *)
Lemma init_installs_root_witness :
  init dictionary_file (sha256_hexdigest "root:adminpw") false =
    Initialised (new_manager dictionary_cfg) (Some 50) /\
  validate dictionary_cfg "root:adminpw" =
    Ret (Some {| v_username := "root"; v_groups := Some [];
                 v_root := Some true |}).
Proof.
  assert (Hinit : init dictionary_file (sha256_hexdigest "root:adminpw") false
                  = Initialised (new_manager dictionary_cfg) (Some 50))
    by reflexivity.
  split; [exact Hinit|].
  exact (proj2 (init_installs_root dictionary_file false "root:adminpw"
                  (new_manager dictionary_cfg) (Some 50) Hinit)).
Defined.

(** X9, on the dictionary file. *)
Lemma init_enabled_has_method_witness :
  init dictionary_file root_sha false =
    Initialised (new_manager dictionary_cfg) (Some 50) /\
  is_enabled (new_manager dictionary_cfg) = true /\
  exists method,
    In method method_names /\
    is_method_enabled dictionary_cfg method = true.
Proof.
  assert (Hinit : init dictionary_file root_sha false =
                  Initialised (new_manager dictionary_cfg) (Some 50))
    by reflexivity.
  split; [exact Hinit|]. split; [reflexivity|].
  exact (init_enabled_has_method dictionary_file root_sha
           (new_manager dictionary_cfg) (Some 50) Hinit eq_refl).
Defined.

(** X10, on the file without methods. *)
Lemma init_forced_witness :
  init no_method_file root_sha true =
    Initialised (new_manager root_only_cfg) None /\
  is_enabled (new_manager root_only_cfg) = true.
Proof.
  assert (Hinit : init no_method_file root_sha true =
                  Initialised (new_manager root_only_cfg) None)
    by reflexivity.
  split; [exact Hinit|].
  exact (proj1 (init_forced_root_only no_method_file root_sha
                  (new_manager root_only_cfg) None Hinit)).
Defined.

Lemma no_method_enabled_in_block :
  forall method, In method method_names ->
    is_method_enabled no_method_block method = false.
Proof.
  intros method [<-|[<-|[<-|[]]]]; reflexivity.
Defined.

(** X11, on the file without methods. *)
Lemma init_without_method_witness :
  init no_method_file root_sha false =
    Initialised (new_manager switched_off_cfg) None /\
  scfg_authentication no_method_file = Some no_method_block /\
  enabled no_method_block = true /\
  (forall method, In method method_names ->
     is_method_enabled no_method_block method = false) /\
  is_enabled (new_manager switched_off_cfg) = false.
Proof.
  assert (Hinit : init no_method_file root_sha false =
                  Initialised (new_manager switched_off_cfg) None)
    by reflexivity.
  split; [exact Hinit|]. split; [reflexivity|]. split; [reflexivity|].
  split; [exact no_method_enabled_in_block|].
  exact (proj1 (init_without_method_is_off no_method_file root_sha
                  no_method_block (new_manager switched_off_cfg) None
                  Hinit eq_refl eq_refl no_method_enabled_in_block)).
Defined.

(** X12, on the dictionary file. *)
Lemma init_flags_witness :
  init dictionary_file root_sha false =
    Initialised (new_manager dictionary_cfg) (Some 50) /\
  scfg_authentication dictionary_file = Some dictionary_block /\
  is_enabled (new_manager dictionary_cfg) = true /\
  method_flag dictionary_cfg "dictionary" = Some true /\
  is_method_enabled dictionary_cfg "dictionary" = true.
Proof.
  assert (Hinit : init dictionary_file root_sha false =
                  Initialised (new_manager dictionary_cfg) (Some 50))
    by reflexivity.
  split; [exact Hinit|]. split; [reflexivity|]. split; [reflexivity|].
  split; [reflexivity|].
  exact (proj1 (init_flags_are_supported dictionary_file root_sha false
                  dictionary_block (new_manager dictionary_cfg) (Some 50)
                  "dictionary" Hinit eq_refl eq_refl eq_refl)).
Defined.

(** X13, on Alice's session at time 30. *)
Lemma revalidate_live_witness :
  is_alive 30 (alice_session 0) = true /\
  fst (fst (revalidate 30 (alice_session 0) stale_store)) = alice_session 30.
Proof.
  split; [reflexivity|].
  exact (proj1 (revalidate_live 30 (alice_session 0) stale_store eq_refl)).
Defined.

(** X14, on Alice's session and her stored record. *)
Lemma revalidate_store_witness :
  query_by_token "A" (snd (fst (revalidate 30 (alice_session 0) stale_store)))
    = Some {| rec_token := "A"; rec_user_name := "alice";
              rec_groups := "dev"; rec_last_access := 30 |}.
Proof.
  exact (proj2 (proj2 (proj2 (proj2
           (revalidate_store 30 (alice_session 0) stale_store))))
           eq_refl eq_refl eq_refl eq_refl eq_refl
           {| rec_token := "A"; rec_user_name := "alice";
              rec_groups := "dev"; rec_last_access := 0 |} eq_refl).
Defined.


Lemma alice_at_0_open : transactions_open alice_at_0.
Proof. intros _. split; reflexivity. Defined.

(** X16, on Alice's token. *)
Lemma logout_witness :
  enabled (auth_config (fst alice_at_0)) = true /\
  transactions_open alice_at_0 /\
  st_faulty (snd alice_at_0) OpQuery = false /\
  deletion_fails alice_at_0 = false /\
  snd (invalidate "A" alice_at_0) = Ret true /\
  get_session 30 "A" (fst (invalidate "A" alice_at_0)) =
    (fst (invalidate "A" alice_at_0), Ret None).
Proof.
  split; [reflexivity|]. split; [exact alice_at_0_open|].
  split; [reflexivity|]. split; [reflexivity|].
  exact (invalidate_then_get_session 30 "A" alice_at_0 eq_refl
           alice_at_0_open eq_refl eq_refl).
Defined.

(** X17, on another token than Alice's. *)
Lemma invalidate_other_witness :
  "A" <> "B" /\
  List.filter (fun s => String.eqb (token s) "A")
    (sessions (fst (fst (invalidate "B" alice_at_0)))) =
  List.filter (fun s => String.eqb (token s) "A") (sessions (fst alice_at_0)).
Proof.
  assert (Hne : "A" <> "B") by (apply String.eqb_neq; reflexivity).
  split; [exact Hne|].
  exact (proj1 (invalidate_other_tokens "B" "A" alice_at_0 Hne)).
Defined.

Lemma two_logins_counted_open : transactions_open two_logins_counted.
Proof. intros _. split; reflexivity. Defined.

(** X18, on the memory that holds Alice's dead session. *)
Lemma cleanup_witness :
  transactions_open two_logins_counted /\
  snd (cleanup_sessions 100 two_logins_counted) = Ret tt /\
  logins_since_prune (fst (fst (cleanup_sessions 100 two_logins_counted))) = 0.
Proof.
  split; [exact two_logins_counted_open|].
  pose proof (cleanup_removes_dead_tokens 100 two_logins_counted
                two_logins_counted_open) as Hclean.
  split; [exact (proj1 Hclean) | exact (proj1 (proj2 Hclean))].
Defined.

Lemma alice_validates :
  validate dictionary_cfg "alice:secret" = Ret (Some alice_validation).
Proof. reflexivity. Defined.

(** X19, on Alice's login and a restart before time 30. *)
Lemma restart_witness :
  30 - 0 <= 60 /\
  get_session 30 "A"
    (set_database_connection true (new_manager dictionary_cfg),
     snd alice_at_0) =
    ((with_session_list [alice_session 0]
        (set_database_connection true (new_manager dictionary_cfg)),
      snd alice_at_0),
     Ret (Some (Cached 0 (alice_session 0)))).
Proof.
  assert (Hlater : 30 - 0 <= 60) by lia.
  assert (Hgroups : Forall (fun g => count ";" g = 0%nat)
                      (default [] (v_groups alice_validation)))
    by (repeat constructor).
  split; [exact Hlater|].
  exact (session_survives_restart 0 30 "A" "alice:secret"
           (connected dictionary_cfg, empty_store) alice_validation
           eq_refl eq_refl eq_refl eq_refl eq_refl eq_refl eq_refl
           alice_validates eq_refl eq_refl eq_refl
           Hgroups Hlater).
Defined.

(** X20, on Alice's login. *)
Lemma first_login_then_get_witness :
  30 - 0 <= 60 /\
  exists i s,
    snd (create_or_get_session 0 "A" "alice:secret"
           (connected dictionary_cfg, empty_store)) = Ret (Granted s) /\
    get_session 30 "A" alice_at_0 = (alice_at_0, Ret (Some (Cached i s))) /\
    last_access s = 0.
Proof.
  assert (Hlater : 30 - 0 <= 60) by lia.
  split; [exact Hlater|].
  exact (first_login_then_get_session 0 30 "A" "alice:secret"
           (connected dictionary_cfg, empty_store) alice_validation
           eq_refl eq_refl eq_refl eq_refl eq_refl
           alice_validates eq_refl eq_refl eq_refl Hlater).
Defined.

(** X21, on a second login of Alice at time 30. *)
Lemma login_again_witness :
  logins_since_prune (fst alice_at_0) + 1 <
    logins_until_cleanup (auth_config (fst alice_at_0)) /\
  find_live 30 "A" (sessions (fst alice_at_0)) =
    Some (0%nat, alice_session 0) /\
  exists s',
    snd (create_or_get_session 30 "B" "alice:secret" alice_at_0) =
      Ret (Granted s') /\
    sessions (fst (fst (create_or_get_session 30 "B" "alice:secret"
                          alice_at_0))) !! 0%nat = Some s' /\
    length (sessions (fst (fst (create_or_get_session 30 "B" "alice:secret"
                                  alice_at_0)))) = 1%nat /\
    token s' = "A" /\ user s' = "alice" /\ groups s' = ["dev"] /\
    is_root s' = false /\ last_access s' = 30.
Proof.
  assert (Hcount : logins_since_prune (fst alice_at_0) + 1 <
                   logins_until_cleanup (auth_config (fst alice_at_0)))
    by (vm_compute; reflexivity).
  split; [exact Hcount|]. split; [reflexivity|].
  exact (login_again_reuses_session 30 "B" "alice:secret"
           (fst alice_at_0) (snd alice_at_0) alice_validation "A" []
           0 (alice_session 0)
           eq_refl eq_refl eq_refl eq_refl eq_refl Hcount
           alice_validates eq_refl eq_refl).
Defined.

(** X22, on two logins of Alice. *)
Lemma second_login_witness :
  30 - 0 <= 60 /\
  exists s,
    snd (create_or_get_session 0 "A" "alice:secret"
           (connected dictionary_cfg, empty_store)) = Ret (Granted s) /\
    snd (create_or_get_session 30 "B" "alice:secret" alice_at_0) =
      Ret (Granted (set_last_access 30 s)) /\
    token s = "A".
Proof.
  assert (Hlater : 30 - 0 <= 60) by lia.
  assert (Hcount : logins_since_prune (connected dictionary_cfg) + 2 <
                   logins_until_cleanup dictionary_cfg)
    by (vm_compute; reflexivity).
  split; [exact Hlater|].
  exact (second_login_same_session 0 30 "A" "B" "alice:secret" "alice:secret"
           (connected dictionary_cfg, empty_store)
           alice_validation alice_validation
           eq_refl eq_refl eq_refl eq_refl eq_refl eq_refl eq_refl
           alice_validates eq_refl eq_refl eq_refl
           alice_validates eq_refl Hcount Hlater).
Defined.

Lemma connected_open :
  transactions_open (connected dictionary_cfg, empty_store).
Proof. intros _. split; reflexivity. Defined.

(** X23, on a credential the dictionary does not hold. *)
Lemma rejected_login_witness :
  validate dictionary_cfg "mallory:wrong" = Ret None /\
  snd (create_or_get_session 0 "T" "mallory:wrong"
         (connected dictionary_cfg, empty_store)) = Ret Rejected.
Proof.
  split; [reflexivity|].
  exact (proj1 (rejected_login_adds_nothing 0 "T" "mallory:wrong"
                  (connected dictionary_cfg, empty_store)
                  eq_refl connected_open eq_refl)).
Defined.

(** X24, after Alice's login. *)
Lemma login_counter_witness :
  reachable dictionary_cfg 0 alice_at_0 /\
  0 <= logins_since_prune (fst alice_at_0) /\
  (logins_since_prune (fst alice_at_0) = 0 \/
   logins_since_prune (fst alice_at_0) < logins_until_cleanup dictionary_cfg).
Proof.
  split; [exact alice_at_0_reachable|].
  exact (proj2 (login_counter_bounded dictionary_cfg 0 alice_at_0
                  alice_at_0_reachable)).
Defined.

(** X25, after Alice's login. *)
Lemma shared_lifetime_witness :
  reachable dictionary_cfg 0 alice_at_0 /\
  Forall (fun s => session_lifetime s = 60) (sessions (fst alice_at_0)).
Proof.
  split; [exact alice_at_0_reachable|].
  exact (sessions_share_configured_lifetime dictionary_cfg 0 alice_at_0
           alice_at_0_reachable).
Defined.

(** X26, on Alice's token at time 30. *)
Lemma get_session_answers_witness :
  get_session 30 "A" alice_at_0 =
    (alice_at_0, Ret (Some (Cached 0 (alice_session 0)))) /\
  sessions (fst alice_at_0) !! 0%nat = Some (alice_session 0) /\
  is_alive 30 (alice_session 0) = true /\
  token (alice_session 0) = "A".
Proof.
  assert (Hget : get_session 30 "A" alice_at_0 =
                 (alice_at_0, Ret (Some (Cached 0 (alice_session 0)))))
    by reflexivity.
  split; [exact Hget|].
  exact (get_session_answers 30 "A" alice_at_0 alice_at_0
           (Some (Cached 0 (alice_session 0))) eq_refl Hget).
Defined.

(** X27, on the store on which every call raises. *)
Lemma unreachable_store_witness :
  database_connection (connected dictionary_cfg) = true /\
  st_faulty broken_store OpConnect = true /\
  invalidate "A" (connected dictionary_cfg, broken_store) =
    ((connected dictionary_cfg, broken_store), Raise UnboundLocalError).
Proof.
  split; [reflexivity|]. split; [reflexivity|].
  exact (proj1 (proj2 (unreachable_store_raises 0 "A" "alice"
                         (connected dictionary_cfg, broken_store)
                         eq_refl eq_refl))).
Defined.

(** C8: [invalidate] is not total.  On a manager whose connection raises
    when a transaction is opened, [invalidate] raises [UnboundLocalError]
    from its [finally] clause, for a token that has a session in memory
    and for one that is in neither tier, and the session is still in
    memory; and when only the release of the transaction raises, the
    removal and the deletion are made and the exception of [close]
    reaches the caller in place of the answer. *)
Theorem invalidate_raises_on_store_failure :
  sessions (fst alice_at_0) = [alice_session 0] /\
  invalidate "A" (fst alice_at_0, broken_store) =
    ((fst alice_at_0, broken_store), Raise UnboundLocalError) /\
  invalidate "nobody" (connected dictionary_cfg, broken_store) =
    ((connected dictionary_cfg, broken_store), Raise UnboundLocalError) /\
  invalidate "A" (fst alice_at_0, closing_fails_store) =
    ((with_logins 1 (connected dictionary_cfg), closing_fails_store),
     Raise StoreError).
Proof. repeat split; vm_compute; reflexivity. Qed.

End MoreFacts.
